(** * A shallow embedding of [iptreet] (src/src/iptree.h)

    The bounded-memory radix tree that counts IP addresses, with its
    insertion-path cache, its prune selector and its histogram walker,
    plus the bit interleaving of the pair tree [ip2tree].

    Representation choices:
    - [TYPE] is [uint64_t] in every instantiation ([iptree], [ip2tree]):
      a [Z] with additions taken modulo [2^64].
    - A node pointer is a [node]; the null pointer is [Nil].  The
      [parent] back-link and the [dirty] flag are not modelled: no code
      path reads them back (they only feed [set_dirty]).
    - Nodes are never moved once created, so a pointer to a node is
      modelled by the path (bits from the root) that reaches it.  The
      cache stores such paths.
    - Undefined behaviour and failed assertions are explicit outcomes
      ([Abort NullDeref], [Abort AssertFailure], [Abort UseAfterFree]).
    - Byte buffers are [list Z]; reading past the end of a buffer yields 0.
    - The size counters [nodes], [ctr_added], [pruned], [cache_hits] and
      [cache_misses] are unbounded: they count live nodes or events and
      never reach [2^64]. *)

From Stdlib Require Import ZArith List Bool Lia String Ascii.
Import ListNotations.

Module IPTree.

(** ** Outcomes of code that may fault *)

Inductive fault : Type :=
| NullDeref        (* dereference of a null node pointer *)
| AssertFailure    (* a failed [assert] *)
| UseAfterFree.    (* a cached pointer to a node that is no longer in the tree *)

Inductive outcome (A : Type) : Type :=
| Ok (a : A)
| Abort (f : fault).
Arguments Ok {A} a.
Arguments Abort {A} f.

Definition bind {A B} (m : outcome A) (k : A -> outcome B) : outcome B :=
  match m with
  | Ok a => k a
  | Abort f => Abort f
  end.

Notation "x <- m ;; k" := (bind m (fun x => k))
  (at level 61, m at next level, right associativity).

(** ** Weights: [uint64_t] *)

Definition W : Z := 2 ^ 64.
Definition wadd (a b : Z) : Z := (a + b) mod W.

(** ** The node class *)

Inductive node : Type :=
| Nil                                   (* null pointer *)
| Node (tsum : Z) (ptr0 ptr1 : node).

Definition nonnull (n : node) : bool :=
  match n with Nil => false | Node _ _ _ => true end.

(** [term()]: [tsum>0 && ptr0==0 && ptr1==0]. *)
Definition term (n : node) : bool :=
  match n with
  | Node t Nil Nil => (0 <? t)%Z
  | _ => false
  end.

(** [nodesum()] *)
Definition nodesum (n : node) : Z :=
  match n with Nil => 0%Z | Node t _ _ => t end.

(** [sum()]: [s = tsum; if(ptr0) s += ptr0->sum(); if(ptr1) s += ptr1->sum();] *)
Fixpoint sum (n : node) : Z :=
  match n with
  | Nil => 0%Z
  | Node t a b =>
      let s := t in
      let s := match a with Nil => s | Node _ _ _ => wadd s (sum a) end in
      match b with Nil => s | Node _ _ _ => wadd s (sum b) end
  end.

(** The node reached from [n] by following the bits of [p]. *)
Fixpoint subnode (n : node) (p : list bool) : node :=
  match p, n with
  | [], _ => n
  | _, Nil => Nil
  | false :: p', Node _ a _ => subnode a p'
  | true :: p', Node _ _ b => subnode b p'
  end.

(** Replace the node at path [p] (if present) by [m]. *)
Fixpoint replace_at (n : node) (p : list bool) (m : node) : node :=
  match p, n with
  | [], _ => m
  | _, Nil => Nil
  | false :: p', Node t a b => Node t (replace_at a p' m) b
  | true :: p', Node t a b => Node t a (replace_at b p' m)
  end.

(** ** [best_to_prune]: the prune selector

    A [best] is the pointer to the chosen node, here its path relative to
    the node the search started from, and its depth. *)

Definition in_child (b : bool) (r : outcome (list bool * nat))
  : outcome (list bool * nat) :=
  match r with
  | Ok (q, d) => Ok (b :: q, d)
  | Abort f => Abort f
  end.

Fixpoint best_to_prune (n : node) (my_depth : nat) : outcome (list bool * nat) :=
  match n with
  | Nil => Abort NullDeref
  | Node _ ptr0 ptr1 =>
    (* case 1 *)
    if term n then Abort AssertFailure else
    (* case 2 *)
    if nonnull ptr0 && term ptr0 && negb (nonnull ptr1) then Ok ([], my_depth) else
    if nonnull ptr1 && term ptr1 && negb (nonnull ptr0) then Ok ([], my_depth) else
    if nonnull ptr0 && term ptr0 && nonnull ptr1 && term ptr1 then Ok ([], my_depth) else
    (* case 3 *)
    if nonnull ptr0 && negb (nonnull ptr1) then in_child false (best_to_prune ptr0 (S my_depth)) else
    if nonnull ptr1 && negb (nonnull ptr0) then in_child true (best_to_prune ptr1 (S my_depth)) else
    (* here both pointers are set, or both are null *)
    match ptr0, ptr1 with
    | Nil, _ => Abort NullDeref          (* [ptr0->term()] with [ptr0 == 0] *)
    | _, Nil => Abort NullDeref
    | Node _ _ _, Node _ _ _ =>
      (* case 4 *)
      if term ptr0 && negb (term ptr1) then in_child true (best_to_prune ptr1 (S my_depth)) else
      if term ptr1 && negb (term ptr0) then in_child false (best_to_prune ptr0 (S my_depth)) else
      (* case 5 *)
      match best_to_prune ptr0 (S my_depth) with
      | Abort f => Abort f
      | Ok (q0, d0) =>
        match best_to_prune ptr1 (S my_depth) with
        | Abort f => Abort f
        | Ok (q1, d1) =>
          let ptr0_best_sum := sum (subnode ptr0 q0) in
          let ptr1_best_sum := sum (subnode ptr1 q1) in
          if (ptr0_best_sum <? ptr1_best_sum)%Z then Ok (false :: q0, d0) else
          if (ptr1_best_sum <? ptr0_best_sum)%Z then Ok (true :: q1, d1) else
          if Nat.ltb d1 d0 then Ok (false :: q0, d0) else Ok (true :: q1, d1)
        end
      end
    end
  end.

(** ** The tree state *)

Record cache_element : Type := mk_cache_element {
  caddr : list Z;                  (* [uint8_t addr[ADDRBYTES]] *)
  cptr : option (list bool)        (* [node *ptr]; [None] is 0, not in use *)
}.

Record tree : Type := mk_tree {
  addrbytes : nat;                 (* template parameter [ADDRBYTES] *)
  root : node;
  nodes : Z;
  maxnodes : Z;                    (* [size_t] *)
  ctr_added : Z;
  pruned : Z;
  cache : list cache_element;
  cachenext : nat;
  cache_hits : Z;
  cache_misses : Z
}.

Definition set_root (tr : tree) (r : node) : tree :=
  mk_tree (addrbytes tr) r (nodes tr) (maxnodes tr) (ctr_added tr) (pruned tr)
          (cache tr) (cachenext tr) (cache_hits tr) (cache_misses tr).

Definition size_t_of_int (x : Z) : Z := x mod 2 ^ 64.

Definition cache_size : nat := 4.

(** Constructor [iptreet(int maxnodes_)]: a root node with [tsum = 0],
    and [cache_size] unused cache elements with zeroed addresses. *)
Definition new_tree (ADDRBYTES : nat) (maxnodes_ : Z) : tree :=
  mk_tree ADDRBYTES (Node 0 Nil Nil) 0 (size_t_of_int maxnodes_) 0 0
          (repeat (mk_cache_element (repeat 0%Z ADDRBYTES) None) cache_size)
          0 0 0.

(** [size()] and [sum()] of the tree. *)
Definition size (tr : tree) : Z := nodes tr.
Definition tree_sum (tr : tree) : Z := sum (root tr).

(** ** Byte buffers *)

(** The first [n] bytes of a buffer. *)
Definition bytes (n : nat) (a : list Z) : list Z :=
  map (fun i => nth i a 0%Z) (seq 0 n).

(** [memcmp(a, b, n) == 0] *)
Definition memeq (a b : list Z) (n : nat) : bool :=
  if list_eq_dec Z.eq_dec (bytes n a) (bytes n b) then true else false.

(** [memcpy(dst, src, n)] into a buffer at least [n] bytes long. *)
Definition memcpy (dst src : list Z) (n : nat) : list Z :=
  bytes n src ++ skipn n dst.

(** [bit(addr, i)]: [addr[i/8] & (1 << ((7-i)&7))], bit 0 is the MSB. *)
Definition bit (addr : list Z) (i : nat) : bool :=
  Z.testbit (nth (i / 8) addr 0%Z) (Z.of_nat (7 - i mod 8)).

(** [vector::operator[]] assignment; an index out of range is not
    written. *)
Fixpoint set_nth {A} (l : list A) (i : nat) (x : A) : list A :=
  match l, i with
  | [], _ => []
  | _ :: l', O => x :: l'
  | y :: l', S i' => y :: set_nth l' i' x
  end.

(** [setbit(addr, i)] *)
Definition setbit (addr : list Z) (i : nat) : list Z :=
  set_nth addr (i / 8)
    (Z.lor (nth (i / 8) addr 0%Z) (Z.shiftl 1 (Z.of_nat (7 - i mod 8)))).

(** ** The cache *)

Definition path_eqb (p q : list bool) : bool :=
  if list_eq_dec bool_dec p q then true else false.

(** [cache_remove(p)]: clear the first element holding [p]. *)
Fixpoint cache_remove (c : list cache_element) (p : list bool) : list cache_element :=
  match c with
  | [] => []
  | e :: c' =>
    match cptr e with
    | Some q => if path_eqb q p then mk_cache_element (caddr e) None :: c'
                else e :: cache_remove c' p
    | None => e :: cache_remove c' p
    end
  end.

(** The scan of [cache_search]: first element in use whose address
    agrees with [addr] on [addrlen] bytes. *)
Fixpoint cache_scan (c : list cache_element) (addr : list Z) (addrlen : nat) (i : nat)
  : option nat :=
  match c with
  | [] => None
  | e :: c' =>
    match cptr e with
    | Some _ => if memeq (caddr e) addr addrlen then Some i
                else cache_scan c' addr addrlen (S i)
    | None => cache_scan c' addr addrlen (S i)
    end
  end.

(** [cache_search]: the slot found (if any) and the counters updated. *)
Definition cache_search (tr : tree) (addr : list Z) (addrlen : nat) : option nat * tree :=
  match cache_scan (cache tr) addr addrlen 0 with
  | Some i =>
    (Some i, mk_tree (addrbytes tr) (root tr) (nodes tr) (maxnodes tr) (ctr_added tr)
                     (pruned tr) (cache tr) (cachenext tr) (cache_hits tr + 1) (cache_misses tr))
  | None =>
    (None, mk_tree (addrbytes tr) (root tr) (nodes tr) (maxnodes tr) (ctr_added tr)
                   (pruned tr) (cache tr) (cachenext tr) (cache_hits tr) (cache_misses tr + 1))
  end.

(** [cache_replace]: advance [cachenext] round robin and overwrite that
    slot.  (With an empty vector the write [cache[0]] is out of range;
    it is not performed here.) *)
Definition cache_replace (tr : tree) (addr : list Z) (addrlen : nat) (p : list bool) : tree :=
  let next := if Nat.leb (List.length (cache tr)) (S (cachenext tr)) then O else S (cachenext tr) in
  let old := nth next (cache tr) (mk_cache_element [] None) in
  let e := mk_cache_element (memcpy (caddr old) addr addrlen) (Some p) in
  mk_tree (addrbytes tr) (root tr) (nodes tr) (maxnodes tr) (ctr_added tr) (pruned tr)
          (set_nth (cache tr) next e) next (cache_hits tr) (cache_misses tr).

(** ** Pruning *)

(** The bookkeeping for one child deleted by [node::prune]. *)
Definition forget_child (tr : tree) (p : list bool) : tree :=
  mk_tree (addrbytes tr) (root tr) (nodes tr - 1) (maxnodes tr) (ctr_added tr)
          (pruned tr + 1) (cache_remove (cache tr) p) (cachenext tr)
          (cache_hits tr) (cache_misses tr).

(** [node::prune] on the node at path [P]: fold each terminal child into
    [tsum], drop it from the cache, delete it.  Always returns 1. *)
Definition node_prune (tr : tree) (P : list bool) : outcome (tree * Z) :=
  match subnode (root tr) P with
  | Nil => Abort NullDeref
  | Node ts ptr0 ptr1 =>
    s0 <- match ptr0 with
          | Nil => Ok (ts, tr)
          | Node t0 _ _ =>
            if term ptr0 then Ok (wadd ts t0, forget_child tr (P ++ [false]))
            else Abort AssertFailure
          end ;;
    let '(ts0, tr0) := s0 in
    s1 <- match ptr1 with
          | Nil => Ok (ts0, tr0)
          | Node t1 _ _ =>
            if term ptr1 then Ok (wadd ts0 t1, forget_child tr0 (P ++ [true]))
            else Abort AssertFailure
          end ;;
    let '(ts1, tr1) := s1 in
    Ok (set_root tr1 (replace_at (root tr1) P (Node ts1 Nil Nil)), 1%Z)
  end.

(** [iptreet::prune()] *)
Definition prune (tr : tree) : outcome (tree * Z) :=
  if term (root tr) then Ok (tr, 0%Z) else
  b <- best_to_prune (root tr) 0 ;;
  node_prune tr (fst b).

(** The [while] loop of [prune_if_greater].  Each iteration removes at
    least one node, so [nodes + 1] iterations are never exhausted. *)
Fixpoint prune_loop (fuel : nat) (tr : tree) : outcome tree :=
  match fuel with
  | O => Ok tr
  | S fuel' =>
    if (maxnodes tr * 9 mod 2 ^ 64 / 10 <? nodes tr)%Z then
      r <- prune tr ;;
      if (snd r =? 0)%Z then Ok (fst r) else prune_loop fuel' (fst r)
    else Ok tr
  end.

(** [prune_if_greater(limit)]: note that [limit] is not read. *)
Definition prune_if_greater (tr : tree) (limit : Z) : outcome tree :=
  if (maxnodes tr <=? nodes tr)%Z then prune_loop (S (Z.to_nat (nodes tr))) tr
  else Ok tr.

(** ** [add] *)

(** [ptr->add(val)] on a cached node. *)
Fixpoint add_at (n : node) (p : list bool) (val : Z) : outcome node :=
  match n, p with
  | Nil, _ => Abort UseAfterFree
  | Node t a b, [] => Ok (Node (wadd t val) a b)
  | Node t a b, false :: p' => a' <- add_at a p' val ;; Ok (Node t a' b)
  | Node t a b, true :: p' => b' <- add_at b p' val ;; Ok (Node t a b')
  end.

Definition created (n : node) : Z := if nonnull n then 0%Z else 1%Z.
Definition fresh_if_null (n : node) : node :=
  match n with Nil => Node 0 Nil Nil | _ => n end.

(** The descent of [add] along the bits [bs], creating absent children
    ([new node(ptr)], [tsum = 0]); returns the new subtree and the number
    of nodes created. *)
Fixpoint descend_add (n : node) (bs : list bool) (val : Z) : node * Z :=
  match n with
  | Nil => (Nil, 0%Z)
  | Node t a b =>
    match bs with
    | [] => (Node (wadd t val) a b, 0%Z)
    | false :: bs' =>
      let '(a', k) := descend_add (fresh_if_null a) bs' val in
      (Node t a' b, (k + created a)%Z)
    | true :: bs' =>
      let '(b', k) := descend_add (fresh_if_null b) bs' val in
      (Node t a b', (k + created b)%Z)
    end
  end.

Definition key_bits (addr : list Z) (addr_bits : nat) : list bool :=
  map (bit addr) (seq 0 addr_bits).

(** [iptreet::add(addr, addrlen, val)] *)
Definition add (tr0 : tree) (addr : list Z) (addrlen : nat) (val : Z) : outcome tree :=
  tr1 <- prune_if_greater tr0 (maxnodes tr0) ;;
  let addrlen := if Nat.ltb (addrbytes tr1) addrlen then addrbytes tr1 else addrlen in
  let addr_bits := (addrlen * 8)%nat in
  match cache_search tr1 addr addrlen with
  | (Some i, tr2) =>
    match cptr (nth i (cache tr2) (mk_cache_element [] None)) with
    | Some p => r <- add_at (root tr2) p val ;; Ok (set_root tr2 r)
    | None => Abort NullDeref
    end
  | (None, tr2) =>
    let bs := key_bits addr addr_bits in
    let '(r, k) := descend_add (root tr2) bs val in
    let tr3 := mk_tree (addrbytes tr2) r (nodes tr2 + k) (maxnodes tr2)
                       (ctr_added tr2 + k) (pruned tr2) (cache tr2) (cachenext tr2)
                       (cache_hits tr2) (cache_misses tr2) in
    Ok (cache_replace tr3 addr addrlen bs)
  end.

(** ** Sequences of public calls *)

Inductive op : Type :=
| OpAdd (addr : list Z) (addrlen : nat) (val : Z)
| OpPrune
| OpPruneIfGreater (limit : Z).

Definition step (tr : tree) (o : op) : outcome tree :=
  match o with
  | OpAdd a l v => add tr a l v
  | OpPrune => r <- prune tr ;; Ok (fst r)
  | OpPruneIfGreater l => prune_if_greater tr l
  end.

Fixpoint run (tr : tree) (ops : list op) : outcome tree :=
  match ops with
  | [] => Ok tr
  | o :: ops' => tr' <- step tr o ;; run tr' ops'
  end.

(** The weights supplied to [add] by a sequence of calls. *)
Fixpoint added_weight (ops : list op) : Z :=
  match ops with
  | [] => 0%Z
  | OpAdd _ _ v :: ops' => (v + added_weight ops')%Z
  | _ :: ops' => added_weight ops'
  end.

(** ** The histogram *)

Record addr_elem : Type := mk_addr_elem {
  eaddr : list bool;     (* the prefix bits; the rest of the buffer is 0 *)
  edepth : nat;
  ecount : Z
}.

Definition max_histogram_depth : nat := 128.

(** [get_histogram(depth, addr, ptr, histogram)]: the entries appended,
    with the address kept as its bit path.  The [ADDRBYTES]-byte buffers
    [addr0] and [addr1] of the source, with their [memcpy] and [setbit]
    and the out-of-bounds writes these make when [ADDRBYTES <= 16], are
    modelled by [HistBytes.get_histogram_bytes]; for [ADDRBYTES >= 17]
    the two agree ([HistBytes.histogram_bytes_refines]). *)
Fixpoint get_histogram (depth : nat) (addr : list bool) (ptr : node) : list addr_elem :=
  match ptr with
  | Nil => []
  | Node t ptr0 ptr1 =>
    (if (t =? 0)%Z then [] else [mk_addr_elem addr depth t]) ++
    (if Nat.ltb max_histogram_depth depth then [] else
       (if nonnull ptr0 then get_histogram (S depth) (addr ++ [false]) ptr0 else []) ++
       (if nonnull ptr1 then get_histogram (S depth) (addr ++ [true]) ptr1 else []))
  end.

Definition histogram (tr : tree) : list addr_elem := get_histogram 0 [] (root tr).


(** ** Output routines *)

(** [itos(n)]: [snprintf("%d", n)] for a non-negative [n]. *)
Fixpoint itos_aux (fuel n : nat) (acc : string) : string :=
  match fuel with
  | O => acc
  | S fuel' =>
    let acc' := String (ascii_of_nat (48 + n mod 10)) acc in
    if Nat.ltb n 10 then acc' else itos_aux fuel' (n / 10) acc'
  end.

Definition itos (n : nat) : string := itos_aux (S n) n EmptyString.

Definition ipv4_bits : nat := 32.
Definition ipv6_bits : nat := 128.

(** [isipv4(addr, addrlen)]: true if [addrlen == 4] or [addr[4..addrlen)] is 0. *)
Definition isipv4 (addr : list Z) (addrlen : nat) : bool :=
  if Nat.eqb addrlen 4 then true
  else forallb (fun i => (nth i addr 0 =? 0)%Z) (seq 4 (addrlen - 4)).

(** [ipv4(a)]: ["%d.%d.%d.%d"] of the first four bytes. *)
Definition ipv4 (a : list Z) : string :=
  let d i := itos (Z.to_nat (nth i a 0%Z)) in
  String.append (d 0)
    (String.append "." (String.append (d 1)
      (String.append "." (String.append (d 2) (String.append "." (d 3)))))).

Section Render.
(** [ipv6(a)] renders through the C library's [inet_ntop(AF_INET6, ...)]. *)
Variable ipv6 : list Z -> string.

(** [ipstr(addr, addrlen, depth)] *)
Definition ipstr (addr : list Z) (addrlen depth : nat) : string :=
  if isipv4 addr addrlen then
    String.append (ipv4 addr)
      (if Nat.ltb depth ipv4_bits then String.append "/" (itos depth) else EmptyString)
  else
    String.append (ipv6 addr)
      (if Nat.ltb depth ipv6_bits then String.append "/" (itos depth) else EmptyString).
End Render.

End IPTree.

(** * The pair tree [ip2tree] ([iptreet<uint64_t,32>]) *)

Module IP2Tree.
Import IPTree.

(** The 32-byte key built by [add_pair]: bit [i] of [addr1] goes to bit
    [2i], bit [i] of [addr2] to bit [2i+1]. *)
Definition pair_key (addr1 addr2 : list Z) (addrlen : nat) : list Z :=
  fold_left
    (fun addr i =>
       let addr := if bit addr1 i then setbit addr (i * 2) else addr in
       if bit addr2 i then setbit addr (i * 2 + 1) else addr)
    (seq 0 (addrlen * 8)) (repeat 0%Z 32).

(** [add_pair(addr1, addr2, addrlen, val)] *)
Definition add_pair (tr : tree) (addr1 addr2 : list Z) (addrlen : nat) (val : Z)
  : outcome tree :=
  add tr (pair_key addr1 addr2 addrlen) (addrlen * 2) val.

(** [un_pair(addr1, addr2, addr12len, depth1, depth2, addr, addrlen, depth)]:
    the two output buffers and the two output depths. *)
Definition un_pair (addr1 addr2 : list Z) (addr : list Z) (addrlen depth : nat)
  : list Z * list Z * nat * nat :=
  let '(a1, a2) :=
    fold_left
      (fun acc i =>
         let '(a1, a2) := acc in
         let a1 := if bit addr (i * 2) then setbit a1 i else a1 in
         let a2 := if bit addr (i * 2 + 1) then setbit a2 i else a2 in
         (a1, a2))
      (seq 0 (addrlen * 8 / 2)) (addr1, addr2) in
  (a1, a2, (depth + 1) / 2, depth / 2).

(** [new ip2tree(maxnodes_)] *)
Definition new_tree2 (maxnodes_ : Z) : tree := new_tree 32 maxnodes_.

End IP2Tree.

(** * Properties *)

Module IPTreeProps.
Import IPTree.

(** IPv4 address [a.b.c.d] in the first four bytes of a 16-byte buffer. *)
Definition ip4 (a b c d : Z) : list Z := [a; b; c; d] ++ repeat 0%Z 12.

(** The reference of the cache-transparency property: the same tree
    with a zero-capacity cache, on which every lookup misses and nothing
    is stored. *)
Definition new_tree_nocache (ADDRBYTES : nat) (maxnodes_ : Z) : tree :=
  mk_tree ADDRBYTES (Node 0 Nil Nil) 0 (size_t_of_int maxnodes_) 0 0 [] 0 0 0.

(** The local count of the node at the prefix of [addr] of [bits] bits
    (0 when there is no such node). *)
Definition local_at (tr : tree) (addr : list Z) (bits : nat) : Z :=
  nodesum (subnode (root tr) (key_bits addr bits)).

Definition present_at (tr : tree) (addr : list Z) (bits : nat) : bool :=
  nonnull (subnode (root tr) (key_bits addr bits)).

(** All the local counts stored in a tree. *)
Fixpoint tsums (n : node) : list Z :=
  match n with
  | Nil => []
  | Node t a b => t :: tsums a ++ tsums b
  end.

(** A candidate of the prune selector: a node with at least one child,
    all of whose present children are terminal. *)
Definition is_candidate (n : node) (p : list bool) : bool :=
  match subnode n p with
  | Nil => false
  | Node _ a b =>
    (nonnull a || nonnull b) && (negb (nonnull a) || term a) && (negb (nonnull b) || term b)
  end.


(** Every node lies at most [k] levels below [n]. *)
Fixpoint within_depth (k : nat) (n : node) : Prop :=
  match n with
  | Nil => True
  | Node _ a b =>
    match k with
    | O => a = Nil /\ b = Nil
    | S k' => within_depth k' a /\ within_depth k' b
    end
  end.

(** Every local count is a [uint64_t] value. *)
Fixpoint counts_in_range (n : node) : Prop :=
  match n with
  | Nil => True
  | Node t a b => (0 <= t < W)%Z /\ counts_in_range a /\ counts_in_range b
  end.

(** The exact total of all local counts. *)
Fixpoint raw_total (n : node) : Z :=
  match n with
  | Nil => 0%Z
  | Node t a b => (t + raw_total a + raw_total b)%Z
  end.

Definition is_byte (x : Z) : Prop := (0 <= x < 256)%Z.

(** The C8 scenario: [10.0.0.1] with weight 100 and [10.0.0.2] with
    weight 1, as 4-byte keys in an [iptree]. *)
Definition scenario8 : list op :=
  [OpAdd (ip4 10 0 0 1) 4 100; OpAdd (ip4 10 0 0 2) 4 1].

(** What the selector guarantees about the node it returns, relative to
    the node [n] it started from. *)
Definition selector_spec (n : node) (d0 : nat) (p : list bool) (d : nat) : Prop :=
  d = (d0 + List.length p)%nat /\ is_candidate n p = true /\
  forall q, is_candidate n q = true ->
    (sum (subnode n p) < sum (subnode n q))%Z \/
    (sum (subnode n p) = sum (subnode n q) /\ (List.length q <= List.length p)%nat).

(** The shape invariant of the reachable trees: local counts in range,
    and a root. *)
Definition good_root (n : node) : Prop := counts_in_range n /\ nonnull n = true.

(** The weight one public call supplies. *)
Definition op_weight (o : op) : Z :=
  match o with OpAdd _ _ v => v | _ => 0%Z end.


(** ** Concrete runs *)

(** C10: on a freshly constructed tree (root with [tsum = 0] and no
    children, so [root->term()] is false) [prune()] reaches
    [best_to_prune], which finds no case 2/3 and evaluates
    [ptr0->term()] on the null [ptr0]: a null dereference instead of
    returning 0. *)
Theorem prune_fresh_tree_null_deref (ADDRBYTES : nat) (maxnodes_ : Z) :
  prune (new_tree ADDRBYTES maxnodes_) = Abort NullDeref.
Proof. reflexivity. Qed.

(** C3: the cache compares only the first [addrlen] bytes of the stored
    key, whatever the length it was stored with.  Adding [1.2.3.4] as a
    4-byte key and then [1.2.3.4] padded to a 16-byte key hits the
    cached depth-32 node: the depth-32 node gets 2 and no depth-128 node
    exists, whereas with a zero-capacity cache the depth-32 and the
    depth-128 nodes each get 1. *)
Theorem cache_changes_counts :
  let ops := [OpAdd (ip4 1 2 3 4) 4 1; OpAdd (ip4 1 2 3 4) 16 1] in
  match run (new_tree 16 1000) ops, run (new_tree_nocache 16 1000) ops with
  | Ok t1, Ok t2 =>
    local_at t1 (ip4 1 2 3 4) 32 = 2%Z /\ present_at t1 (ip4 1 2 3 4) 128 = false /\
    local_at t2 (ip4 1 2 3 4) 32 = 1%Z /\ local_at t2 (ip4 1 2 3 4) 128 = 1%Z /\
    histogram t1 <> histogram t2
  | _, _ => False
  end.
Proof. vm_compute. repeat split; try reflexivity; intro; discriminate. Qed.

(** C6: with an entry in use in the cache, [add(addr, 0, w)] compares 0
    bytes, hits that entry, and adds [w] to the cached node instead of the
    root. *)
Theorem zero_length_add_hits_cache :
  match run (new_tree 16 1000) [OpAdd (ip4 1 2 3 4) 4 1; OpAdd (ip4 9 9 9 9) 0 5] with
  | Ok t => nodesum (root t) = 0%Z /\ local_at t (ip4 1 2 3 4) 32 = 6%Z
  | Abort _ => False
  end.
Proof. vm_compute. split; reflexivity. Qed.


Lemma tsums_subnode (n : node) (p : list bool) (t : Z) (a b : node) :
  subnode n p = Node t a b -> In t (tsums n).
Proof.
  revert n; induction p as [|[] p IH]; intros n H; destruct n as [|t' a' b'];
    simpl in H; try discriminate.
  - injection H as <- <- <-. left; reflexivity.
  - right. apply in_or_app. right. exact (IH _ H).
  - right. apply in_or_app. left. exact (IH _ H).
Qed.

(** C8 (as stated): no depth-31 node (indeed no node at all) has local
    count 101 after the forced prune. *)
Theorem scenario8_no_101 :
  match run (new_tree 16 1000) scenario8 with
  | Ok t =>
    match prune t with
    | Ok (t', _) => ~ exists p, List.length p = 31%nat /\ nodesum (subnode (root t') p) = 101%Z
    | Abort _ => False
    end
  | Abort _ => False
  end.
Proof.
  destruct (run (new_tree 16 1000) scenario8) as [t|f] eqn:E;
    [|vm_compute in E; discriminate].
  destruct (prune t) as [[t' z]|f] eqn:E2;
    [|vm_compute in E; injection E as <-; vm_compute in E2; discriminate].
  intros [p [_ Hp]].
  destruct (subnode (root t') p) as [|t0 a b] eqn:Es; simpl in Hp; [discriminate|].
  subst t0. apply tsums_subnode in Es.
  vm_compute in E; injection E as <-. vm_compute in E2; injection E2 as <- <-.
  vm_compute in Es. repeat (destruct Es as [Es|Es]; [discriminate|]). exact Es.
Qed.

(** C8 (amended): before the prune the tree has 34 nodes and sum 101;
    the two addresses part at depth 30; the prune returns 1 and folds
    [10.0.0.2] into its own depth-31 parent ([10.0.0.2/31]), whose local
    becomes 1, and leaves [10.0.0.1] with 100 under a parent with local
    0; the sum stays 101, the size drops to 33, and no node at all has
    local count 101. *)
Theorem scenario8_prune :
  match run (new_tree 16 1000) scenario8 with
  | Ok t =>
    size t = 34%Z /\ tree_sum t = 101%Z /\
    key_bits (ip4 10 0 0 1) 30 = key_bits (ip4 10 0 0 2) 30 /\
    key_bits (ip4 10 0 0 1) 31 <> key_bits (ip4 10 0 0 2) 31 /\
    match prune t with
    | Ok (t', r) =>
      r = 1%Z /\
      local_at t' (ip4 10 0 0 2) 31 = 1%Z /\
      present_at t' (ip4 10 0 0 2) 32 = false /\
      local_at t' (ip4 10 0 0 1) 32 = 100%Z /\
      local_at t' (ip4 10 0 0 1) 31 = 0%Z /\
      tree_sum t' = 101%Z /\ size t' = 33%Z /\
      (forall p, nodesum (subnode (root t') p) <> 101%Z)
    | Abort _ => False
    end
  | Abort _ => False
  end.
Proof.
  destruct (run (new_tree 16 1000) scenario8) as [t|f] eqn:E;
    [|vm_compute in E; discriminate].
  vm_compute in E. injection E as <-.
  match goal with |- context [prune ?x] =>
    destruct (prune x) as [[t' r]|f] eqn:E2; vm_compute in E2; [|discriminate]
  end.
  injection E2 as <- <-.
  repeat split; try (vm_compute; reflexivity); try (vm_compute; intro; discriminate).
  intros p Hp.
  destruct (subnode _ p) as [|t0 a b] eqn:Es; cbn [nodesum] in Hp; [discriminate|].
  subst t0. apply tsums_subnode in Es.
  vm_compute in Es. repeat (destruct Es as [Es|Es]; [discriminate|]). exact Es.
Qed.

(** C2: [prune_if_greater] compares [nodes] with [maxnodes], not with its
    argument: with [maxnodes = 1000] and 34 nodes, [prune_if_greater(10)]
    prunes nothing and leaves [size() = 34 > 10]. *)
Theorem prune_if_greater_ignores_limit :
  match run (new_tree 16 1000) scenario8 with
  | Ok t =>
    (10 <= size t)%Z /\ prune_if_greater t 10 = Ok t /\ size t = 34%Z
  | Abort _ => False
  end.
Proof. vm_compute. repeat split; try reflexivity; intro; discriminate. Qed.

(** C1 (as stated fails): counts are [uint64_t] and wrap. *)
Theorem sum_wraps :
  let ops := [OpAdd (ip4 1 2 3 4) 4 (W - 1); OpAdd (ip4 1 2 3 4) 4 1] in
  match run (new_tree 16 1000) ops with
  | Ok t => tree_sum t = 0%Z /\ added_weight ops = W /\ tree_sum t <> added_weight ops
  | Abort _ => False
  end.
Proof. vm_compute. repeat split; try reflexivity; intro; discriminate. Qed.

(** C9 (as stated fails): an address whose bytes 4..15 are zero is
    rendered as IPv4, and at depth 128 gets no ["/128"] suffix although
    128 is not 32. *)
Theorem ipstr_no_suffix_beyond_width :
  ipstr (fun _ => EmptyString) (ip4 1 2 3 4) 16 128 = "1.2.3.4"%string /\
  ipstr (fun _ => EmptyString) (ip4 1 2 3 4) 16 128 <>
    String.append (ipv4 (ip4 1 2 3 4)) (String.append "/" (itos 128)).
Proof. vm_compute. split; [reflexivity | discriminate]. Qed.

(** ** The prune selector *)

Lemma subnode_nil (q : list bool) : subnode Nil q = Nil.
Proof. destruct q as [|[] q]; reflexivity. Qed.

Lemma candidate_nil (q : list bool) : is_candidate Nil q = false.
Proof. unfold is_candidate. rewrite subnode_nil. reflexivity. Qed.

Lemma candidate_term (n : node) (q : list bool) : term n = true -> is_candidate n q = false.
Proof.
  intros Hn. destruct n as [|t a b]; [discriminate|].
  destruct a; [|discriminate]. destruct b; [|discriminate].
  destruct q as [|[] q]; [reflexivity| |]; unfold is_candidate; simpl;
    destruct q as [|[] q]; reflexivity.
Qed.

Lemma candidate_here (t : Z) (a b : node) :
  is_candidate (Node t a b) [] =
  (nonnull a || nonnull b) && (negb (nonnull a) || term a) && (negb (nonnull b) || term b).
Proof. reflexivity. Qed.

Lemma candidate_left (t : Z) (a b : node) (q : list bool) :
  is_candidate (Node t a b) (false :: q) = is_candidate a q.
Proof. reflexivity. Qed.

Lemma candidate_right (t : Z) (a b : node) (q : list bool) :
  is_candidate (Node t a b) (true :: q) = is_candidate b q.
Proof. reflexivity. Qed.


Ltac no_candidate H :=
  first [ rewrite candidate_nil in H; discriminate H
        | rewrite candidate_term in H; [discriminate H | assumption] ].

(** The node itself is returned when all its present children are terminal. *)
Lemma selector_spec_here (t : Z) (a b : node) (d0 : nat) :
  (nonnull a || nonnull b) = true ->
  (a = Nil \/ term a = true) -> (b = Nil \/ term b = true) ->
  selector_spec (Node t a b) d0 [] d0.
Proof.
  intros Hab Ha Hb. split; [simpl; lia|]. split.
  - rewrite candidate_here, Hab.
    destruct Ha as [-> | ->]; destruct Hb as [-> | ->]; rewrite ?orb_true_r; reflexivity.
  - intros [|[] q] Hq; [right; split; reflexivity| |].
    + rewrite candidate_right in Hq. destruct Hb as [-> | Hb]; no_candidate Hq.
    + rewrite candidate_left in Hq. destruct Ha as [-> | Ha]; no_candidate Hq.
Qed.

(** The answer of a child is the answer of the node when the node is not
    a candidate and the other child holds no candidate. *)
Lemma selector_spec_left (t : Z) (a b : node) (d0 q0 : nat) (p : list bool) :
  selector_spec a (S d0) p q0 ->
  is_candidate (Node t a b) [] = false ->
  (forall q, is_candidate b q = false) ->
  selector_spec (Node t a b) d0 (false :: p) q0.
Proof.
  intros [Hd [Hc Hm]] Hh Hb. split; [simpl; lia|]. split; [exact Hc|].
  intros [|[] q] Hq.
  - rewrite Hh in Hq. discriminate.
  - rewrite candidate_right, Hb in Hq. discriminate.
  - rewrite candidate_left in Hq. destruct (Hm q Hq) as [Hlt|[Heq Hle]];
      [left; exact Hlt | right; split; [exact Heq | simpl; lia]].
Qed.

Lemma selector_spec_right (t : Z) (a b : node) (d0 q0 : nat) (p : list bool) :
  selector_spec b (S d0) p q0 ->
  is_candidate (Node t a b) [] = false ->
  (forall q, is_candidate a q = false) ->
  selector_spec (Node t a b) d0 (true :: p) q0.
Proof.
  intros [Hd [Hc Hm]] Hh Ha. split; [simpl; lia|]. split; [exact Hc|].
  intros [|[] q] Hq.
  - rewrite Hh in Hq. discriminate.
  - rewrite candidate_right in Hq. destruct (Hm q Hq) as [Hlt|[Heq Hle]];
      [left; exact Hlt | right; split; [exact Heq | simpl; lia]].
  - rewrite candidate_left, Ha in Hq. discriminate.
Qed.

(** Case 5: the better of the two children's answers. *)
Lemma selector_spec_both (t : Z) (a b : node) (d0 e0 e1 d : nat) (p0 p1 p : list bool) :
  selector_spec a (S d0) p0 e0 -> selector_spec b (S d0) p1 e1 ->
  is_candidate (Node t a b) [] = false ->
  (let s0 := sum (subnode a p0) in
   let s1 := sum (subnode b p1) in
   if (s0 <? s1)%Z then Ok (false :: p0, e0) else
   if (s1 <? s0)%Z then Ok (true :: p1, e1) else
   if Nat.ltb e1 e0 then Ok (false :: p0, e0) else Ok (true :: p1, e1)) = Ok (p, d) ->
  selector_spec (Node t a b) d0 p d.
Proof.
  intros [Hd0 [Hc0 Hm0]] [Hd1 [Hc1 Hm1]] Hh H. cbv zeta in H.
  assert (Hboth : forall q, is_candidate (Node t a b) q = true ->
            (is_candidate a (tl q) = true /\ q = false :: tl q) \/
            (is_candidate b (tl q) = true /\ q = true :: tl q)).
  { intros [|[] q] Hq; [rewrite Hh in Hq; discriminate | right | left]; auto. }
  destruct (Z.ltb_spec (sum (subnode a p0)) (sum (subnode b p1))) as [L01|L01];
  [|destruct (Z.ltb_spec (sum (subnode b p1)) (sum (subnode a p0))) as [L10|L10];
    [|destruct (Nat.ltb_spec e1 e0) as [E|E]]];
  injection H as <- <-; (split; [simpl; lia|]); (split; [assumption|]);
  intros q Hq; destruct (Hboth q Hq) as [[Hq' Eq]|[Hq' Eq]]; rewrite Eq; cbn [subnode List.length];
  first [ destruct (Hm0 _ Hq') as [Hl|[He Hle]]
        | destruct (Hm1 _ Hq') as [Hl|[He Hle]] ];
  first [ left; lia | right; split; lia ].
Qed.

(** C4: when the selector returns a node, that node is a candidate (it
    has a child and all its present children are terminal), its
    subtree sum does not exceed that of any other candidate, and among
    candidates of minimum sum it is one of the deepest. *)
Theorem best_to_prune_minimal (n : node) (d0 : nat) (p : list bool) (d : nat) :
  best_to_prune n d0 = Ok (p, d) ->
  d = (d0 + List.length p)%nat /\ is_candidate n p = true /\
  forall q, is_candidate n q = true ->
    (sum (subnode n p) < sum (subnode n q))%Z \/
    (sum (subnode n p) = sum (subnode n q) /\ (List.length q <= List.length p)%nat).
Proof.
  revert d0 p d.
  induction n as [|t a IHa b IHb]; intros d0 p d H; [discriminate|].
  change (selector_spec (Node t a b) d0 p d).
  revert H. cbn [best_to_prune].
  destruct (term (Node t a b)) eqn:Tn; [discriminate|].
  destruct a as [|ta a0 a1]; destruct b as [|tb b0 b1]; cbn [nonnull andb negb].
  - discriminate.
  - destruct (term (Node tb b0 b1)) eqn:Tb; cbn [andb negb].
    + intro H; injection H as <- <-. apply selector_spec_here; auto.
    + destruct (best_to_prune (Node tb b0 b1) (S d0)) as [[q1 e1]|f] eqn:Bb;
        simpl; intro H; [|discriminate].
      injection H as <- <-. apply selector_spec_right.
      * exact (IHb _ _ _ Bb).
      * rewrite candidate_here; cbn [nonnull negb orb andb]; rewrite ?Ta, ?Tb; reflexivity.
      * intro q; apply candidate_nil.
  - destruct (term (Node ta a0 a1)) eqn:Ta; cbn [andb negb].
    + intro H; injection H as <- <-. apply selector_spec_here; auto.
    + destruct (best_to_prune (Node ta a0 a1) (S d0)) as [[q0 e0]|f] eqn:Ba;
        simpl; intro H; [|discriminate].
      injection H as <- <-. apply selector_spec_left.
      * exact (IHa _ _ _ Ba).
      * rewrite candidate_here; cbn [nonnull negb orb andb]; rewrite ?Ta, ?Tb; reflexivity.
      * intro q; apply candidate_nil.
  - destruct (term (Node ta a0 a1)) eqn:Ta; destruct (term (Node tb b0 b1)) eqn:Tb;
      cbn [andb negb].
    + intro H; injection H as <- <-. apply selector_spec_here; auto.
    + destruct (best_to_prune (Node tb b0 b1) (S d0)) as [[q1 e1]|f] eqn:Bb;
        simpl; intro H; [|discriminate].
      injection H as <- <-. apply selector_spec_right.
      * exact (IHb _ _ _ Bb).
      * rewrite candidate_here; cbn [nonnull negb orb andb]; rewrite ?Ta, ?Tb; reflexivity.
      * intro q; apply candidate_term; exact Ta.
    + destruct (best_to_prune (Node ta a0 a1) (S d0)) as [[q0 e0]|f] eqn:Ba;
        simpl; intro H; [|discriminate].
      injection H as <- <-. apply selector_spec_left.
      * exact (IHa _ _ _ Ba).
      * rewrite candidate_here; cbn [nonnull negb orb andb]; rewrite ?Ta, ?Tb; reflexivity.
      * intro q; apply candidate_term; exact Tb.
    + destruct (best_to_prune (Node ta a0 a1) (S d0)) as [[q0 e0]|f] eqn:Ba;
        [|discriminate].
      destruct (best_to_prune (Node tb b0 b1) (S d0)) as [[q1 e1]|f] eqn:Bb;
        [|discriminate].
      intro H. eapply selector_spec_both.
      * exact (IHa _ _ _ Ba).
      * exact (IHb _ _ _ Bb).
      * rewrite candidate_here; cbn [nonnull negb orb andb]; rewrite ?Ta, ?Tb; reflexivity.
      * exact H.
Qed.

Lemma best_to_prune_minimal_witness :
  let r := Node 0 (Node 0 (Node 5 Nil Nil) Nil) (Node 0 (Node 3 Nil Nil) Nil) in
  best_to_prune r 0 = Ok ([true], 1%nat) /\
  (1 = 0 + List.length [true] /\ is_candidate r [true] = true /\
   forall q, is_candidate r q = true ->
     (sum (subnode r [true]) < sum (subnode r q))%Z \/
     (sum (subnode r [true]) = sum (subnode r q) /\
      (List.length q <= List.length [true])%nat))%nat.
Proof.
  intro r. split.
  - vm_compute. reflexivity.
  - apply (best_to_prune_minimal r 0 [true] 1). vm_compute. reflexivity.
Defined.

(** C9 (amended): [ipstr] appends ["/d"] exactly when [d] is below the
    full width of the family the address is rendered in: 32 when it
    looks like an IPv4 address (a 4-byte key, or bytes 4 to [addrlen]
    zero),
    128 otherwise; at that width or beyond nothing is appended. *)
Theorem ipstr_suffix_below_width (ipv6 : list Z -> string) (addr : list Z)
    (addrlen depth : nat) :
  ipstr ipv6 addr addrlen depth =
  String.append
    (if isipv4 addr addrlen then ipv4 addr else ipv6 addr)
    (if Nat.ltb depth (if isipv4 addr addrlen then ipv4_bits else ipv6_bits)
     then String.append "/" (itos depth) else EmptyString).
Proof. unfold ipstr. destruct (isipv4 addr addrlen); reflexivity. Qed.

(** ** Conservation of the weights, modulo [2^64] *)

Lemma W_pos : (0 < W)%Z.
Proof. unfold W, Z.lt. reflexivity. Qed.

Lemma W_nz : W <> 0%Z.
Proof. pose proof W_pos. lia. Qed.

Lemma wadd_range (a b : Z) : (0 <= wadd a b < W)%Z.
Proof. unfold wadd. apply Z.mod_pos_bound, W_pos. Qed.

Lemma mod_cong (x y c : Z) : (x mod W = y mod W)%Z -> ((x + c) mod W = (y + c) mod W)%Z.
Proof.
  intros H. rewrite <- (Z.add_mod_idemp_l x), H, Z.add_mod_idemp_l by exact W_nz.
  reflexivity.
Qed.

Lemma term_leaf (t : Z) (a b : node) : term (Node t a b) = true -> a = Nil /\ b = Nil.
Proof. destruct a, b; simpl; try discriminate. auto. Qed.

(** [sum()] is the total of the local counts, reduced modulo [2^64]. *)
Lemma sum_raw (n : node) : counts_in_range n -> sum n = (raw_total n mod W)%Z.
Proof.
  induction n as [|t a IHa b IHb]; intros R; [reflexivity|].
  destruct R as [Rt [Ra Rb]]. simpl sum. rewrite (IHa Ra), (IHb Rb).
  destruct a as [|ta a0 a1], b as [|tb b0 b1]; cbn [raw_total]; unfold wadd.
  - rewrite !Z.add_0_r. symmetry. apply Z.mod_small. exact Rt.
  - rewrite Z.add_mod_idemp_r by exact W_nz. f_equal; lia.
  - rewrite Z.add_mod_idemp_r by exact W_nz. f_equal; lia.
  - rewrite Z.add_mod_idemp_r, Z.add_mod_idemp_r, Z.add_mod_idemp_l by exact W_nz.
    f_equal; lia.
Qed.


Lemma add_at_raw (n : node) (p : list bool) (val : Z) (n' : node) :
  add_at n p val = Ok n' -> counts_in_range n ->
  counts_in_range n' /\ nonnull n' = true /\
  (raw_total n' mod W = (raw_total n + val) mod W)%Z.
Proof.
  revert p n'. induction n as [|t a IHa b IHb]; intros p n' H R; [discriminate|].
  destruct R as [Rt [Ra Rb]].
  destruct p as [|[|] p']; cbn [add_at] in H.
  - injection H as <-. split; [split; [apply wadd_range | auto]|]. split; [reflexivity|].
    cbn [raw_total]. unfold wadd.
    rewrite <- !Z.add_assoc, Z.add_mod_idemp_l by exact W_nz. f_equal; lia.
  - destruct (add_at b p' val) as [b'|f] eqn:E; cbn [bind] in H; [|discriminate].
    injection H as <-. destruct (IHb _ _ E Rb) as [R' [_ M]].
    split; [split; auto|]. split; [reflexivity|]. cbn [raw_total].
    replace (t + raw_total a + raw_total b')%Z with (raw_total b' + (t + raw_total a))%Z by lia.
    rewrite (mod_cong _ _ _ M). f_equal; lia.
  - destruct (add_at a p' val) as [a'|f] eqn:E; cbn [bind] in H; [|discriminate].
    injection H as <-. destruct (IHa _ _ E Ra) as [R' [_ M]].
    split; [split; auto|]. split; [reflexivity|]. cbn [raw_total].
    replace (t + raw_total a' + raw_total b)%Z with (raw_total a' + (t + raw_total b))%Z by lia.
    rewrite (mod_cong _ _ _ M). f_equal; lia.
Qed.

Lemma fresh_if_null_props (n : node) :
  counts_in_range n ->
  counts_in_range (fresh_if_null n) /\ nonnull (fresh_if_null n) = true /\
  raw_total (fresh_if_null n) = raw_total n.
Proof.
  destruct n; simpl; intros R; [|auto].
  split; [|split; reflexivity]. split; [pose proof W_pos; lia | auto].
Qed.

Lemma descend_add_raw (bs : list bool) (n : node) (val : Z) (n' : node) (k : Z) :
  descend_add n bs val = (n', k) -> nonnull n = true -> counts_in_range n ->
  counts_in_range n' /\ nonnull n' = true /\
  (raw_total n' mod W = (raw_total n + val) mod W)%Z.
Proof.
  revert n n' k. induction bs as [|[|] bs' IH]; intros n n' k H Nn R;
    (destruct n as [|t a b]; [discriminate|]); destruct R as [Rt [Ra Rb]];
    cbn [descend_add] in H.
  - injection H as <- _. split; [split; [apply wadd_range | auto]|]. split; [reflexivity|].
    cbn [raw_total]. unfold wadd.
    rewrite <- !Z.add_assoc, Z.add_mod_idemp_l by exact W_nz. f_equal; lia.
  - destruct (fresh_if_null_props b Rb) as [Fr [Fn Fe]].
    destruct (descend_add (fresh_if_null b) bs' val) as [b' k'] eqn:E.
    injection H as <- _. destruct (IH _ _ _ E Fn Fr) as [R' [_ M]]. rewrite Fe in M.
    split; [split; auto|]. split; [reflexivity|]. cbn [raw_total].
    replace (t + raw_total a + raw_total b')%Z with (raw_total b' + (t + raw_total a))%Z by lia.
    rewrite (mod_cong _ _ _ M). f_equal; lia.
  - destruct (fresh_if_null_props a Ra) as [Fr [Fn Fe]].
    destruct (descend_add (fresh_if_null a) bs' val) as [a' k'] eqn:E.
    injection H as <- _. destruct (IH _ _ _ E Fn Fr) as [R' [_ M]]. rewrite Fe in M.
    split; [split; auto|]. split; [reflexivity|]. cbn [raw_total].
    replace (t + raw_total a' + raw_total b)%Z with (raw_total a' + (t + raw_total b))%Z by lia.
    rewrite (mod_cong _ _ _ M). f_equal; lia.
Qed.

Lemma subnode_range (n : node) (P : list bool) :
  counts_in_range n -> counts_in_range (subnode n P).
Proof.
  revert n. induction P as [|[|] P IH]; intros [|t a b] R; simpl; auto;
    destruct R as [_ [Ra Rb]]; auto.
Qed.

Lemma replace_at_range (n : node) (P : list bool) (m : node) :
  counts_in_range n -> counts_in_range m -> counts_in_range (replace_at n P m).
Proof.
  revert n. induction P as [|[|] P IH]; intros [|t a b] R Rm; simpl; auto;
    destruct R as [Rt [Ra Rb]]; auto.
Qed.

Lemma replace_at_nonnull (n : node) (P : list bool) (m : node) :
  nonnull n = true -> nonnull m = true -> nonnull (replace_at n P m) = true.
Proof. destruct P as [|[|] P], n; simpl; auto. Qed.

Lemma replace_at_raw (n : node) (P : list bool) (m m' : node) :
  subnode n P = m -> nonnull m = true ->
  (raw_total m' mod W = raw_total m mod W)%Z ->
  (raw_total (replace_at n P m') mod W = raw_total n mod W)%Z.
Proof.
  revert n. induction P as [|[|] P IH]; intros n S Nm M.
  - subst. destruct n; exact M.
  - destruct n as [|t a b]; [simpl in S; subst; discriminate|]. simpl in S |- *.
    pose proof (IH b S Nm M) as M'.
    replace (t + raw_total a + raw_total (replace_at b P m'))%Z
      with (raw_total (replace_at b P m') + (t + raw_total a))%Z by lia.
    rewrite (mod_cong _ _ _ M'). f_equal; lia.
  - destruct n as [|t a b]; [simpl in S; subst; discriminate|]. simpl in S |- *.
    pose proof (IH a S Nm M) as M'.
    replace (t + raw_total (replace_at a P m') + raw_total b)%Z
      with (raw_total (replace_at a P m') + (t + raw_total b))%Z by lia.
    rewrite (mod_cong _ _ _ M'). f_equal; lia.
Qed.

(** The node written back by [node::prune] carries the same total,
    modulo [2^64], as the node and the children it replaces. *)
Lemma node_prune_inv (tr : tree) (P : list bool) (tr' : tree) (z : Z) :
  node_prune tr P = Ok (tr', z) -> good_root (root tr) ->
  good_root (root tr') /\ (raw_total (root tr') mod W = raw_total (root tr) mod W)%Z.
Proof.
  intros H [R Nn]. unfold node_prune in H.
  destruct (subnode (root tr) P) as [|ts p0 p1] eqn:S; [discriminate|].
  pose proof (subnode_range (root tr) P R) as RS. rewrite S in RS.
  destruct RS as [Rts [R0 R1]].
  assert (Hfin : forall ts1, (0 <= ts1 < W)%Z ->
            (ts1 mod W = raw_total (Node ts p0 p1) mod W)%Z ->
            good_root (replace_at (root tr) P (Node ts1 Nil Nil)) /\
            (raw_total (replace_at (root tr) P (Node ts1 Nil Nil)) mod W =
             raw_total (root tr) mod W)%Z).
  { intros ts1 Rg M. split; [split|].
    - apply replace_at_range; [exact R|]. simpl; auto.
    - apply replace_at_nonnull; [exact Nn | reflexivity].
    - apply (replace_at_raw _ _ (Node ts p0 p1)); [exact S | reflexivity |].
      cbn [raw_total]. rewrite !Z.add_0_r. exact M. }
  destruct p0 as [|t0 x0 y0];
    [| destruct (term (Node t0 x0 y0)) eqn:T0; [|discriminate];
       destruct (term_leaf _ _ _ T0) as [-> ->] ];
  (destruct p1 as [|t1 x1 y1];
    [| destruct (term (Node t1 x1 y1)) eqn:T1;
       [| cbn [bind] in H; discriminate];
       destruct (term_leaf _ _ _ T1) as [-> ->] ]);
  cbn [bind] in H; injection H as <- _; cbn [root set_root forget_child];
  apply Hfin; cbn [raw_total]; unfold wadd; rewrite ?Z.add_0_r;
  try (apply Z.mod_pos_bound, W_pos); try exact Rts;
  rewrite ?Z.mod_mod, ?Z.add_mod_idemp_l by exact W_nz; try reflexivity.
Qed.

Lemma prune_inv (tr tr' : tree) (z : Z) :
  prune tr = Ok (tr', z) -> good_root (root tr) ->
  good_root (root tr') /\ (raw_total (root tr') mod W = raw_total (root tr) mod W)%Z.
Proof.
  unfold prune. intros H G. destruct (term (root tr)).
  - injection H as <- _. auto.
  - destruct (best_to_prune (root tr) 0) as [[p d]|f]; cbn [bind fst] in H; [|discriminate].
    exact (node_prune_inv _ _ _ _ H G).
Qed.

Lemma prune_loop_inv (fuel : nat) (tr tr' : tree) :
  prune_loop fuel tr = Ok tr' -> good_root (root tr) ->
  good_root (root tr') /\ (raw_total (root tr') mod W = raw_total (root tr) mod W)%Z.
Proof.
  revert tr. induction fuel as [|fuel IH]; intros tr H G; cbn [prune_loop] in H.
  - injection H as <-. auto.
  - destruct (_ <? _)%Z; [|injection H as <-; auto].
    destruct (prune tr) as [[tr1 z]|f] eqn:E; cbn [bind fst snd] in H; [|discriminate].
    destruct (prune_inv _ _ _ E G) as [G1 M1].
    destruct (z =? 0)%Z.
    + injection H as <-. auto.
    + destruct (IH _ H G1) as [G2 M2]. split; [exact G2|]. congruence.
Qed.

Lemma prune_if_greater_inv (tr tr' : tree) (limit : Z) :
  prune_if_greater tr limit = Ok tr' -> good_root (root tr) ->
  good_root (root tr') /\ (raw_total (root tr') mod W = raw_total (root tr) mod W)%Z.
Proof.
  unfold prune_if_greater. intros H G. destruct (_ <=? _)%Z.
  - exact (prune_loop_inv _ _ _ H G).
  - injection H as <-. auto.
Qed.

Lemma add_inv (tr : tree) (a : list Z) (l : nat) (v : Z) (tr' : tree) :
  add tr a l v = Ok tr' -> good_root (root tr) ->
  good_root (root tr') /\ (raw_total (root tr') mod W = (raw_total (root tr) + v) mod W)%Z.
Proof.
  unfold add. intros H G.
  destruct (prune_if_greater tr (maxnodes tr)) as [tr1|f] eqn:E1; cbn [bind] in H;
    [|discriminate].
  destruct (prune_if_greater_inv _ _ _ E1 G) as [[R1 N1] M1].
  match type of H with
  | context [cache_search tr1 a ?len] => destruct (cache_search tr1 a len) as [[i|] tr2] eqn:E2
  end;
  (assert (Hr : root tr2 = root tr1)
     by (unfold cache_search in E2; destruct cache_scan; injection E2; intros; subst; reflexivity)).
  - destruct (cptr _) as [p|]; [|discriminate].
    destruct (add_at (root tr2) p v) as [r|f] eqn:E3; cbn [bind] in H; [|discriminate].
    injection H as <-. rewrite Hr in E3.
    destruct (add_at_raw _ _ _ _ E3 R1) as [R' [N' M']].
    split; [split; assumption|]. cbn [root set_root]. rewrite M'. apply mod_cong, M1.
  - match type of H with
    | context [descend_add (root tr2) ?bs v] =>
        destruct (descend_add (root tr2) bs v) as [r k] eqn:E3
    end.
    injection H as <-. rewrite Hr in E3.
    destruct (descend_add_raw _ _ _ _ _ E3 N1 R1) as [R' [N' M']].
    split; [split; assumption|]. cbn [root cache_replace]. rewrite M'. apply mod_cong, M1.
Qed.


Lemma step_inv (tr : tree) (o : op) (tr' : tree) :
  step tr o = Ok tr' -> good_root (root tr) ->
  good_root (root tr') /\
  (raw_total (root tr') mod W = (raw_total (root tr) + op_weight o) mod W)%Z.
Proof.
  destruct o as [a l v| |limit]; cbn [step op_weight]; intros H G.
  - exact (add_inv _ _ _ _ _ H G).
  - destruct (prune tr) as [[tr1 z]|f] eqn:E; cbn [bind fst] in H; [|discriminate].
    injection H as <-. rewrite Z.add_0_r. exact (prune_inv _ _ _ E G).
  - rewrite Z.add_0_r. exact (prune_if_greater_inv _ _ _ H G).
Qed.

Lemma run_inv (ops : list op) (tr tr' : tree) :
  run tr ops = Ok tr' -> good_root (root tr) ->
  good_root (root tr') /\
  (raw_total (root tr') mod W = (raw_total (root tr) + added_weight ops) mod W)%Z.
Proof.
  revert tr. induction ops as [|o ops IH]; intros tr H G; cbn [run] in H.
  - injection H as <-. rewrite Z.add_0_r. auto.
  - destruct (step tr o) as [tr1|f] eqn:E; cbn [bind] in H; [|discriminate].
    destruct (step_inv _ _ _ E G) as [G1 M1]. destruct (IH _ H G1) as [G2 M2].
    split; [exact G2|]. rewrite M2.
    replace (raw_total (root tr) + added_weight (o :: ops))%Z
      with (raw_total (root tr) + op_weight o + added_weight ops)%Z
      by (destruct o; cbn [added_weight op_weight]; lia).
    apply mod_cong, M1.
Qed.

(** C1 (amended): in every run from a new tree that completes (no
    fault), [tree.sum()] equals the total of the weights given to [add]
    reduced modulo [2^64], i.e. their sum in the [uint64_t] weight type:
    [prune] and [prune_if_greater] lose nothing, but the counts wrap. *)
Theorem sum_conserved_mod (ADDRBYTES : nat) (maxnodes_ : Z) (ops : list op) (tr : tree) :
  run (new_tree ADDRBYTES maxnodes_) ops = Ok tr ->
  tree_sum tr = (added_weight ops mod W)%Z.
Proof.
  intros H.
  assert (G : good_root (root (new_tree ADDRBYTES maxnodes_))).
  { split; [simpl; pose proof W_pos; lia | reflexivity]. }
  destruct (run_inv _ _ _ H G) as [[R _] M].
  unfold tree_sum. rewrite (sum_raw _ R), M. reflexivity.
Qed.

Lemma sum_conserved_mod_witness :
  exists tr,
    run (new_tree 16 1000) [OpAdd (ip4 10 0 0 1) 4 100; OpAdd (ip4 10 0 0 2) 4 1; OpPrune]
      = Ok tr /\
    tree_sum tr =
      (added_weight [OpAdd (ip4 10 0 0 1) 4 100; OpAdd (ip4 10 0 0 2) 4 1; OpPrune] mod W)%Z.
Proof.
  eexists. split.
  - cbv. reflexivity.
  - apply (sum_conserved_mod 16 1000). cbv. reflexivity.
Defined.

(** ** The histogram reports the nodes down to depth 129 *)




(** ** The depth of the base tree *)





Lemma within_nil (k : nat) : within_depth k Nil.
Proof. destruct k; exact I. Qed.







Lemma key_bits_length (addr : list Z) (n : nat) : List.length (key_bits addr n) = n.
Proof. unfold key_bits. rewrite length_map, length_seq. reflexivity. Qed.



End IPTreeProps.

Module IP2TreeProps.
Import IPTree IP2Tree IPTreeProps.

(** One iteration of the loop of [add_pair]. *)
Definition interleave_step (addr1 addr2 : list Z) (addr : list Z) (i : nat) : list Z :=
  let addr := if bit addr1 i then setbit addr (i * 2) else addr in
  if bit addr2 i then setbit addr (i * 2 + 1) else addr.

(** One iteration of the loop of [un_pair]. *)
Definition deinterleave_step (addr : list Z) (acc : list Z * list Z) (i : nat)
  : list Z * list Z :=
  let '(a1, a2) := acc in
  let a1 := if bit addr (i * 2) then setbit a1 i else a1 in
  let a2 := if bit addr (i * 2 + 1) then setbit a2 i else a2 in
  (a1, a2).

(** ** Bits of byte buffers *)

Lemma set_nth_length {A} (l : list A) (i : nat) (x : A) :
  List.length (set_nth l i x) = List.length l.
Proof. revert i; induction l as [|y l IH]; intros [|i]; simpl; auto. Qed.

Lemma nth_set_nth {A} (l : list A) (i j : nat) (x d : A) :
  (i < List.length l)%nat ->
  nth j (set_nth l i x) d = if Nat.eqb j i then x else nth j l d.
Proof.
  revert i j; induction l as [|y l IH]; intros i j Hi; simpl in Hi; [lia|].
  destruct i as [|i], j as [|j]; simpl; auto. apply IH. lia.
Qed.

Lemma setbit_length (a : list Z) (j : nat) :
  List.length (setbit a j) = List.length a.
Proof. apply set_nth_length. Qed.

Lemma bit_index (i j : nat) :
  i / 8 = j / 8 -> Nat.eqb (7 - i mod 8) (7 - j mod 8) = Nat.eqb i j.
Proof.
  intros E.
  pose proof (Nat.div_mod_eq i 8). pose proof (Nat.div_mod_eq j 8).
  pose proof (Nat.mod_upper_bound i 8 ltac:(lia)).
  pose proof (Nat.mod_upper_bound j 8 ltac:(lia)).
  destruct (Nat.eqb_spec (7 - i mod 8) (7 - j mod 8)), (Nat.eqb_spec i j);
    auto; exfalso; lia.
Qed.

(** [setbit(a, j)] sets exactly bit [j]. *)
Lemma bit_setbit (a : list Z) (i j : nat) :
  (j / 8 < List.length a)%nat ->
  bit (setbit a j) i = bit a i || Nat.eqb i j.
Proof.
  intros Hj. unfold bit, setbit. rewrite nth_set_nth by exact Hj.
  destruct (Nat.eqb_spec (i / 8) (j / 8)) as [E|E].
  - rewrite E, Z.lor_spec, Z.shiftl_1_l, Z.pow2_bits_eqb by lia. f_equal.
    rewrite <- (bit_index i j E).
    destruct (Nat.eqb_spec (7 - i mod 8) (7 - j mod 8)),
             (Z.eqb_spec (Z.of_nat (7 - j mod 8)) (Z.of_nat (7 - i mod 8))); auto; lia.
  - destruct (Nat.eqb_spec i j) as [->|]; [congruence|]. rewrite orb_false_r. reflexivity.
Qed.

Lemma bit_zeros (n i : nat) : bit (repeat 0%Z n) i = false.
Proof.
  unfold bit. destruct (Nat.ltb_spec (i / 8) n).
  - rewrite nth_repeat_lt by exact H. apply Z.testbit_0_l.
  - rewrite nth_overflow by (rewrite repeat_length; lia). apply Z.testbit_0_l.
Qed.

Lemma bit_cons_8 (x : Z) (a : list Z) (i : nat) : bit (x :: a) (i + 8) = bit a i.
Proof.
  unfold bit. replace ((i + 8) / 8)%nat with (S (i / 8)).
  - replace ((i + 8) mod 8)%nat with (i mod 8); [reflexivity|].
    replace (i + 8)%nat with (i + 1 * 8)%nat by lia. rewrite Nat.Div0.mod_add. reflexivity.
  - replace (i + 8)%nat with (i + 1 * 8)%nat by lia. rewrite Nat.div_add by lia. lia.
Qed.

Lemma bit_cons_low (x : Z) (a : list Z) (k : nat) :
  (k < 8)%nat -> bit (x :: a) (7 - k) = Z.testbit x (Z.of_nat k).
Proof.
  intros Hk. unfold bit. rewrite Nat.div_small by lia. rewrite Nat.mod_small by lia.
  simpl nth. f_equal. lia.
Qed.

Lemma byte_testbit_high (x : Z) (n : Z) : is_byte x -> (8 <= n)%Z -> Z.testbit x n = false.
Proof.
  intros [H0 H1] Hn. destruct (Z.eq_dec x 0) as [->|Hx]; [apply Z.testbit_0_l|].
  apply Z.bits_above_log2; [lia|].
  assert (Z.log2 x < 8)%Z by (apply Z.log2_lt_pow2; simpl; lia). lia.
Qed.

Lemma byte_lor_bit (x : Z) (k : nat) :
  is_byte x -> (k < 8)%nat -> is_byte (Z.lor x (Z.shiftl 1 (Z.of_nat k))).
Proof.
  intros [H0 H1] Hk. rewrite Z.shiftl_1_l.
  assert (Hp : (0 <= 2 ^ Z.of_nat k)%Z) by (apply Z.pow_nonneg; lia).
  split; [apply Z.lor_nonneg; lia|].
  destruct (Z.eq_dec (Z.lor x (2 ^ Z.of_nat k)) 0) as [->|Hne]; [lia|].
  change 256%Z with (2 ^ 8)%Z.
  apply (Z.log2_lt_pow2 _ 8); [pose proof (proj2 (Z.lor_nonneg x (2 ^ Z.of_nat k))); lia|].
  rewrite Z.log2_lor by lia. rewrite Z.log2_pow2 by lia.
  apply Z.max_lub_lt; [|lia].
  destruct (Z.eq_dec x 0) as [->|Hx]; [simpl; lia|].
  apply Z.log2_lt_pow2; simpl; lia.
Qed.

Lemma setbit_bytes (a : list Z) (j : nat) :
  Forall is_byte a -> Forall is_byte (setbit a j).
Proof.
  unfold setbit. intros Ha.
  assert (Hx : is_byte (Z.lor (nth (j / 8) a 0%Z) (Z.shiftl 1 (Z.of_nat (7 - j mod 8))))).
  { apply byte_lor_bit; [|lia].
    destruct (Nat.ltb_spec (j / 8) (List.length a)).
    - rewrite Forall_forall in Ha. apply Ha, nth_In. exact H.
    - rewrite nth_overflow by lia. unfold is_byte; lia. }
  revert Hx. generalize (Z.lor (nth (j / 8) a 0%Z) (Z.shiftl 1 (Z.of_nat (7 - j mod 8)))).
  intros X Hx. generalize (j / 8)%nat. revert Ha.
  induction 1 as [|y l Hy Hl IH]; intros [|i]; simpl; try constructor; auto.
Qed.

(** Two byte buffers of one length with the same bits are equal. *)
Lemma bytes_eq_of_bits (a b : list Z) :
  List.length a = List.length b -> Forall is_byte a -> Forall is_byte b ->
  (forall i, bit a i = bit b i) -> a = b.
Proof.
  revert b; induction a as [|x a IH]; intros [|y b] Hl Ha Hb Hbits;
    simpl in Hl; try discriminate; [reflexivity|].
  inversion Ha as [|? ? Hx Ha']; inversion Hb as [|? ? Hy Hb']; subst.
  f_equal.
  - apply Z.bits_inj'. intros n Hn.
    destruct (Z.lt_ge_cases n 8) as [Hlt|Hge].
    + replace n with (Z.of_nat (Z.to_nat n)) by lia.
      rewrite <- (bit_cons_low x a), <- (bit_cons_low y b) by lia. apply Hbits.
    + rewrite !byte_testbit_high by assumption. reflexivity.
  - apply IH; auto. intro i. rewrite <- (bit_cons_8 x a i), <- (bit_cons_8 y b i). apply Hbits.
Qed.

Lemma bit_beyond (a : list Z) (i : nat) :
  (8 * List.length a <= i)%nat -> bit a i = false.
Proof.
  intros H. unfold bit. rewrite nth_overflow; [apply Z.testbit_0_l|].
  apply Nat.div_le_lower_bound; lia.
Qed.

Lemma bit_app_zeros (a : list Z) (k i : nat) : bit (a ++ repeat 0%Z k) i = bit a i.
Proof.
  unfold bit. f_equal.
  destruct (Nat.ltb_spec (i / 8) (List.length a)).
  - apply app_nth1. exact H.
  - rewrite app_nth2 by exact H. rewrite (nth_overflow a) by exact H.
    destruct (Nat.ltb_spec (i / 8 - List.length a) k).
    + apply nth_repeat_lt. exact H0.
    + apply nth_overflow. rewrite repeat_length. exact H0.
Qed.

Lemma div8_bound (j n : nat) : (j < 8 * n)%nat -> (j / 8 < n)%nat.
Proof. intros H. apply Nat.Div0.div_lt_upper_bound. lia. Qed.

(** ** The interleaving loop of [add_pair] *)


Lemma pair_key_fold (addr1 addr2 : list Z) (addrlen : nat) :
  pair_key addr1 addr2 addrlen =
  fold_left (interleave_step addr1 addr2) (seq 0 (addrlen * 8)) (repeat 0%Z 32).
Proof. reflexivity. Qed.

Lemma interleave_step_bits (addr1 addr2 buf : list Z) (n k : nat) :
  List.length buf = 32%nat -> (n < 128)%nat ->
  List.length (interleave_step addr1 addr2 buf n) = 32%nat /\
  bit (interleave_step addr1 addr2 buf n) k =
  bit buf k || (bit addr1 n && Nat.eqb k (n * 2)) || (bit addr2 n && Nat.eqb k (n * 2 + 1)).
Proof.
  intros Hl Hn. unfold interleave_step.
  destruct (bit addr1 n), (bit addr2 n); simpl;
    rewrite ?setbit_length, ?Hl; (split; [reflexivity|]);
    rewrite ?bit_setbit by (rewrite ?setbit_length; apply div8_bound; lia);
    rewrite ?orb_false_r; reflexivity.
Qed.

Lemma interleave_bits (addr1 addr2 : list Z) (n : nat) :
  (n <= 128)%nat ->
  let buf := fold_left (interleave_step addr1 addr2) (seq 0 n) (repeat 0%Z 32) in
  List.length buf = 32%nat /\
  forall m, bit buf (m * 2) = Nat.ltb m n && bit addr1 m /\
            bit buf (m * 2 + 1) = Nat.ltb m n && bit addr2 m.
Proof.
  induction n as [|n IH]; intros Hn buf; subst buf.
  - cbn [seq fold_left]. split; [reflexivity|]. intro m. rewrite !bit_zeros. split; reflexivity.
  - rewrite seq_S, fold_left_app, Nat.add_0_l. cbn [fold_left].
    destruct (IH ltac:(lia)) as [Hl Hb].
    set (buf := fold_left (interleave_step addr1 addr2) (seq 0 n) (repeat 0%Z 32)) in *.
    split; [apply (interleave_step_bits addr1 addr2 buf n 0 Hl); lia|].
    intro m. rewrite !(proj2 (interleave_step_bits addr1 addr2 buf n _ Hl ltac:(lia))).
    destruct (Hb m) as [H0 H1]. rewrite H0, H1.
    destruct (Nat.ltb_spec m n), (Nat.ltb_spec m (S n)); try lia;
    destruct (Nat.eqb_spec (m * 2) (n * 2)), (Nat.eqb_spec (m * 2) (n * 2 + 1)),
             (Nat.eqb_spec (m * 2 + 1) (n * 2)), (Nat.eqb_spec (m * 2 + 1) (n * 2 + 1));
    try lia; simpl; rewrite ?andb_false_r, ?andb_true_r, ?orb_false_r; try (split; reflexivity).
    assert (m = n) by lia. subst m. split; reflexivity.
Qed.

(** ** The de-interleaving loop of [un_pair] *)


Lemma un_pair_fold (addr1 addr2 addr : list Z) (addrlen depth : nat) :
  un_pair addr1 addr2 addr addrlen depth =
  let '(a1, a2) :=
    fold_left (deinterleave_step addr) (seq 0 (addrlen * 8 / 2)) (addr1, addr2) in
  (a1, a2, (depth + 1) / 2, depth / 2).
Proof. reflexivity. Qed.

Lemma deinterleave_bits (addr : list Z) (n : nat) :
  (n <= 128)%nat ->
  let r := fold_left (deinterleave_step addr) (seq 0 n) (repeat 0%Z 16, repeat 0%Z 16) in
  List.length (fst r) = 16%nat /\ List.length (snd r) = 16%nat /\
  Forall is_byte (fst r) /\ Forall is_byte (snd r) /\
  forall i, bit (fst r) i = Nat.ltb i n && bit addr (i * 2) /\
            bit (snd r) i = Nat.ltb i n && bit addr (i * 2 + 1).
Proof.
  assert (Hz : Forall is_byte (repeat 0%Z 16)).
  { apply Forall_forall. intros x Hx. apply repeat_spec in Hx. subst. unfold is_byte; lia. }
  induction n as [|n IH]; intros Hn r; subst r.
  - cbn [seq fold_left fst snd].
    repeat split; auto; rewrite bit_zeros; reflexivity.
  - rewrite seq_S, fold_left_app, Nat.add_0_l. cbn [fold_left].
    destruct (IH ltac:(lia)) as [Hl1 [Hl2 [Hb1 [Hb2 Hb]]]].
    destruct (fold_left (deinterleave_step addr) (seq 0 n) (repeat 0%Z 16, repeat 0%Z 16))
      as [r1 r2]. unfold deinterleave_step. cbn [fst snd] in *.
    assert (Hn8 : (n / 8 < 16)%nat) by (apply div8_bound; lia).
    split; [destruct (bit addr (n * 2)); rewrite ?setbit_length; exact Hl1|].
    split; [destruct (bit addr (n * 2 + 1)); rewrite ?setbit_length; exact Hl2|].
    split; [destruct (bit addr (n * 2)); auto using setbit_bytes|].
    split; [destruct (bit addr (n * 2 + 1)); auto using setbit_bytes|].
    intro i. destruct (Hb i) as [H1 H2].
    destruct (bit addr (n * 2)) eqn:E1, (bit addr (n * 2 + 1)) eqn:E2;
      rewrite ?bit_setbit by lia; rewrite H1, H2;
      destruct (Nat.ltb_spec i n), (Nat.ltb_spec i (S n)), (Nat.eqb_spec i n); try lia;
      simpl; rewrite ?orb_false_r; try (split; reflexivity); subst i;
      rewrite ?E1, ?E2; split; reflexivity.
Qed.

(** C7: de-interleaving the buffer that [add_pair] builds from two
    addresses of [L <= 16] bytes gives back the two addresses (in the
    16-byte output buffers, padded with zeros), for any [addrlen] of
    [un_pair] covering the [2L] interleaved bytes (such as the 32 that
    [ip2str] passes); the two output depths are the ceiling and the
    floor of half the depth and add up to it. *)
Theorem un_pair_add_pair (a1 a2 : list Z) (L addrlen depth : nat) :
  List.length a1 = L -> List.length a2 = L -> (L <= 16)%nat ->
  Forall is_byte a1 -> Forall is_byte a2 ->
  (2 * L <= addrlen <= 32)%nat ->
  exists depth1 depth2,
    un_pair (repeat 0%Z 16) (repeat 0%Z 16) (pair_key a1 a2 L) addrlen depth =
      (a1 ++ repeat 0%Z (16 - L), a2 ++ repeat 0%Z (16 - L), depth1, depth2) /\
    (depth1 + depth2 = depth)%nat /\ (depth1 = depth2 \/ depth1 = S depth2).
Proof.
  intros La1 La2 HL B1 B2 Hm.
  rewrite un_pair_fold.
  assert (Hn : (addrlen * 8 / 2 = addrlen * 4)%nat).
  { replace (addrlen * 8)%nat with (addrlen * 4 * 2)%nat by lia. apply Nat.div_mul. lia. }
  rewrite Hn.
  destruct (deinterleave_bits (pair_key a1 a2 L) (addrlen * 4) ltac:(lia))
    as [Hl1 [Hl2 [Hb1 [Hb2 Hb]]]].
  destruct (fold_left (deinterleave_step (pair_key a1 a2 L)) (seq 0 (addrlen * 4))
              (repeat 0%Z 16, repeat 0%Z 16)) as [r1 r2]. simpl in *.
  destruct (interleave_bits a1 a2 (L * 8) ltac:(lia)) as [_ Hk].
  rewrite <- pair_key_fold in Hk.
  assert (Hz : forall a, List.length a = L -> Forall is_byte a ->
            List.length (a ++ repeat 0%Z (16 - L)) = 16%nat /\
            Forall is_byte (a ++ repeat 0%Z (16 - L))).
  { intros a La Ba. rewrite length_app, repeat_length. split; [lia|].
    apply Forall_app. split; [exact Ba|].
    apply Forall_forall. intros x Hx. apply repeat_spec in Hx. subst. unfold is_byte; lia. }
  destruct (Hz a1 La1 B1) as [Lz1 Bz1]. destruct (Hz a2 La2 B2) as [Lz2 Bz2].
  assert (E1 : r1 = a1 ++ repeat 0%Z (16 - L)).
  { apply bytes_eq_of_bits; try congruence; auto.
    intro i. rewrite bit_app_zeros. destruct (Hb i) as [-> _]. destruct (Hk i) as [-> _].
    destruct (Nat.ltb_spec i (addrlen * 4)), (Nat.ltb_spec i (L * 8)); simpl; auto;
      try lia; symmetry; apply bit_beyond; lia. }
  assert (E2 : r2 = a2 ++ repeat 0%Z (16 - L)).
  { apply bytes_eq_of_bits; try congruence; auto.
    intro i. rewrite bit_app_zeros. destruct (Hb i) as [_ ->]. destruct (Hk i) as [_ ->].
    destruct (Nat.ltb_spec i (addrlen * 4)), (Nat.ltb_spec i (L * 8)); simpl; auto;
      try lia; symmetry; apply bit_beyond; lia. }
  exists ((depth + 1) / 2)%nat, (depth / 2)%nat. split; [|split].
  - rewrite E1, E2. reflexivity.
  - pose proof (Nat.div_mod_eq depth 2). pose proof (Nat.mod_upper_bound depth 2).
    pose proof (Nat.div_mod_eq (depth + 1) 2). pose proof (Nat.mod_upper_bound (depth + 1) 2).
    lia.
  - pose proof (Nat.div_mod_eq depth 2). pose proof (Nat.mod_upper_bound depth 2).
    pose proof (Nat.div_mod_eq (depth + 1) 2). pose proof (Nat.mod_upper_bound (depth + 1) 2).
    lia.
Qed.

Lemma un_pair_add_pair_witness :
  exists depth1 depth2,
    un_pair (repeat 0%Z 16) (repeat 0%Z 16) (pair_key [1;2;3;4]%Z [5;6;7;8]%Z 4) 32 64 =
      ([1;2;3;4]%Z ++ repeat 0%Z 12, [5;6;7;8]%Z ++ repeat 0%Z 12, depth1, depth2) /\
    (depth1 + depth2 = 64)%nat /\ (depth1 = depth2 \/ depth1 = S depth2).
Proof.
  apply (un_pair_add_pair [1;2;3;4]%Z [5;6;7;8]%Z 4 32 64);
    try reflexivity; try lia;
    repeat constructor; unfold is_byte; lia.
Defined.

End IP2TreeProps.

(** * The cache never holds a dangling pointer *)

Module CacheProps.
Import IPTree IPTreeProps IP2TreeProps.

(** The node paths held by the cache elements in use. *)
Fixpoint cache_paths (c : list cache_element) : list (list bool) :=
  match c with
  | [] => []
  | e :: c' =>
    match cptr e with
    | Some q => q :: cache_paths c'
    | None => cache_paths c'
    end
  end.

(** A cache element of a tree with root [r]: its address is made of
    bytes, and when in use it points to a node of [r] whose path is the
    bits of the first [k] bytes of that address. *)
Definition slot_ok (r : node) (e : cache_element) : Prop :=
  Forall is_byte (caddr e) /\
  match cptr e with
  | None => True
  | Some q => nonnull (subnode r q) = true /\ exists k, q = key_bits (caddr e) (k * 8)
  end.

(** The cache invariant: every element is sound, and no two elements in
    use point to the same node. *)
Definition cache_ok (tr : tree) : Prop :=
  Forall (slot_ok (root tr)) (cache tr) /\ NoDup (cache_paths (cache tr)).

(** [e'] is [e], possibly with its pointer cleared. *)
Definition slot_weaker (e' e : cache_element) : Prop :=
  caddr e' = caddr e /\ (cptr e' = None \/ cptr e' = cptr e).

(** The addresses a call passes are [uint8_t] buffers. *)
Definition op_bytes (o : op) : Prop :=
  match o with OpAdd a _ _ => Forall is_byte a | _ => True end.

Definition no_slot : cache_element := mk_cache_element [] None.

(** ** Byte buffers *)

Lemma nth_map_seq {A} (f : nat -> A) (n k : nat) (d : A) :
  (k < n)%nat -> nth k (map f (seq 0 n)) d = f k.
Proof.
  intros H. rewrite (nth_indep (map f (seq 0 n)) d (f O)) by (rewrite length_map, length_seq; exact H).
  rewrite map_nth, seq_nth by exact H. reflexivity.
Qed.

Lemma nth_byte (a : list Z) (i : nat) : Forall is_byte a -> is_byte (nth i a 0%Z).
Proof.
  intros H. destruct (Nat.ltb_spec i (List.length a)).
  - rewrite Forall_forall in H. apply H, nth_In. exact H0.
  - rewrite nth_overflow by exact H0. unfold is_byte. lia.
Qed.

Lemma zeros_bytes (n : nat) : Forall is_byte (repeat 0%Z n).
Proof.
  apply Forall_forall. intros x Hx. apply repeat_spec in Hx. subst. unfold is_byte. lia.
Qed.

Lemma bytes_length (n : nat) (a : list Z) : List.length (bytes n a) = n.
Proof. unfold bytes. rewrite length_map, length_seq. reflexivity. Qed.

Lemma bytes_bytes (n : nat) (a : list Z) : Forall is_byte a -> Forall is_byte (bytes n a).
Proof.
  intros H. unfold bytes. apply Forall_forall. intros x Hx.
  apply in_map_iff in Hx. destruct Hx as [i [<- _]]. apply nth_byte, H.
Qed.

Lemma nth_bytes (n k : nat) (a : list Z) :
  nth k (bytes n a) 0%Z = if Nat.ltb k n then nth k a 0%Z else 0%Z.
Proof.
  destruct (Nat.ltb_spec k n).
  - unfold bytes. rewrite nth_map_seq by exact H. reflexivity.
  - apply nth_overflow. rewrite bytes_length. exact H.
Qed.

Lemma nth_memcpy (dst src : list Z) (n k : nat) :
  nth k (memcpy dst src n) 0%Z = if Nat.ltb k n then nth k src 0%Z else nth k dst 0%Z.
Proof.
  unfold memcpy. destruct (Nat.ltb_spec k n).
  - rewrite app_nth1 by (rewrite bytes_length; exact H). rewrite nth_bytes.
    destruct (Nat.ltb_spec k n); [reflexivity | lia].
  - rewrite app_nth2 by (rewrite bytes_length; exact H). rewrite bytes_length, nth_skipn.
    f_equal. lia.
Qed.

Lemma bit_memcpy (dst src : list Z) (n i : nat) :
  bit (memcpy dst src n) i = if Nat.ltb i (n * 8) then bit src i else bit dst i.
Proof.
  unfold bit. rewrite nth_memcpy.
  pose proof (Nat.div_mod_eq i 8). pose proof (Nat.mod_upper_bound i 8 ltac:(lia)).
  destruct (Nat.ltb_spec (i / 8) n), (Nat.ltb_spec i (n * 8)); try reflexivity; lia.
Qed.

Lemma memcpy_bytes (dst src : list Z) (n : nat) :
  Forall is_byte dst -> Forall is_byte src -> Forall is_byte (memcpy dst src n).
Proof.
  intros Hd Hs. unfold memcpy. apply Forall_app. split; [apply bytes_bytes, Hs|].
  apply Forall_forall. intros x Hx. rewrite Forall_forall in Hd. apply Hd.
  rewrite <- (firstn_skipn n dst). apply in_or_app. right. exact Hx.
Qed.

Lemma key_bits_nth (a : list Z) (N j : nat) :
  (j < N)%nat -> nth j (key_bits a N) false = bit a j.
Proof.
  intros H. unfold key_bits. apply nth_map_seq, H.
Qed.

(** The bits of the first [n] bytes determine those bytes. *)
Lemma key_bits_bytes (a b : list Z) (n : nat) :
  Forall is_byte a -> Forall is_byte b ->
  key_bits a (n * 8) = key_bits b (n * 8) -> bytes n a = bytes n b.
Proof.
  intros Ba Bb H. apply bytes_eq_of_bits.
  - rewrite !bytes_length. reflexivity.
  - apply bytes_bytes, Ba.
  - apply bytes_bytes, Bb.
  - intro i. unfold bit. rewrite !nth_bytes. destruct (Nat.ltb_spec (i / 8) n); [|reflexivity].
    change (bit a i = bit b i).
    pose proof (Nat.div_mod_eq i 8). pose proof (Nat.mod_upper_bound i 8 ltac:(lia)).
    rewrite <- (key_bits_nth a (n * 8) i), <- (key_bits_nth b (n * 8) i), H by lia.
    reflexivity.
Qed.

Lemma key_bits_memcpy (dst src : list Z) (n : nat) :
  key_bits (memcpy dst src n) (n * 8) = key_bits src (n * 8).
Proof.
  unfold key_bits. apply map_ext_in. intros i Hi. apply in_seq in Hi.
  rewrite bit_memcpy. destruct (Nat.ltb_spec i (n * 8)); [reflexivity | lia].
Qed.

(** ** The cache scan *)

Lemma cache_scan_some (c : list cache_element) (a : list Z) (l i j : nat) :
  cache_scan c a l i = Some j ->
  (i <= j)%nat /\ exists q, cptr (nth (j - i) c no_slot) = Some q.
Proof.
  revert i. induction c as [|e c IH]; intros i H; cbn [cache_scan] in H; [discriminate|].
  destruct (cptr e) as [q|] eqn:E; [destruct (memeq (caddr e) a l)|].
  - injection H as <-. split; [lia|]. rewrite Nat.sub_diag. exists q. exact E.
  - destruct (IH _ H) as [Hij [q' Hq]]. split; [lia|].
    replace (j - i)%nat with (S (j - S i)) by lia. exists q'. exact Hq.
  - destruct (IH _ H) as [Hij [q' Hq]]. split; [lia|].
    replace (j - i)%nat with (S (j - S i)) by lia. exists q'. exact Hq.
Qed.

Lemma cache_scan_none (c : list cache_element) (a : list Z) (l i : nat) :
  cache_scan c a l i = None ->
  forall e, In e c -> cptr e <> None -> memeq (caddr e) a l = false.
Proof.
  revert i. induction c as [|e0 c IH]; intros i H e Hin Hu; [destruct Hin|].
  cbn [cache_scan] in H. destruct Hin as [<-|Hin].
  - destruct (cptr e0); [|congruence]. destruct (memeq (caddr e0) a l); [discriminate | reflexivity].
  - destruct (cptr e0); [destruct (memeq (caddr e0) a l); [discriminate|]|];
      exact (IH _ H e Hin Hu).
Qed.

Lemma nth_in_use (c : list cache_element) (j : nat) (q : list bool) :
  cptr (nth j c no_slot) = Some q -> In (nth j c no_slot) c.
Proof.
  intros H. destruct (Nat.ltb_spec j (List.length c)).
  - apply nth_In. exact H0.
  - rewrite nth_overflow in H by exact H0. discriminate.
Qed.

(** ** The paths in use *)

Lemma in_cache_paths (c : list cache_element) (q : list bool) :
  In q (cache_paths c) <-> exists e, In e c /\ cptr e = Some q.
Proof.
  induction c as [|e c IH]; cbn [cache_paths].
  - split; [intros []|intros [e [[] _]]].
  - destruct (cptr e) as [q'|] eqn:E; [cbn [In]|]; rewrite IH; split.
    + intros [<-|[e' [H1 H2]]]; [exists e; split; [left; reflexivity | exact E]|].
      exists e'. split; [right; exact H1 | exact H2].
    + intros [e' [[<-|H1] H2]]; [left; congruence | right; exists e'; auto].
    + intros [e' [H1 H2]]. exists e'. split; [right; exact H1 | exact H2].
    + intros [e' [[<-|H1] H2]]; [congruence | exists e'; auto].
Qed.

Lemma path_eqb_true (p q : list bool) : path_eqb p q = true <-> p = q.
Proof. unfold path_eqb. destruct (list_eq_dec bool_dec p q); split; congruence. Qed.

Lemma weaker_refl (c : list cache_element) : Forall2 slot_weaker c c.
Proof.
  induction c as [|e c IH]; constructor; [|exact IH]. split; [reflexivity | right; reflexivity].
Qed.

Lemma weaker_trans (c'' c' c : list cache_element) :
  Forall2 slot_weaker c'' c' -> Forall2 slot_weaker c' c -> Forall2 slot_weaker c'' c.
Proof.
  intros H1. revert c. induction H1 as [|e'' e' c'' c' [A1 P1] _ IH]; intros c H2;
    inversion H2 as [|? e ? c0 [A2 P2] H2']; subst; constructor.
  - split; [congruence|]. destruct P1 as [P1|P1]; [left; exact P1|].
    rewrite P1. exact P2.
  - apply IH, H2'.
Qed.

Lemma cache_remove_weaker (c : list cache_element) (p : list bool) :
  Forall2 slot_weaker (cache_remove c p) c.
Proof.
  induction c as [|e c IH]; cbn [cache_remove]; [constructor|].
  destruct (cptr e) as [q|] eqn:E; [destruct (path_eqb q p)|].
  - constructor; [split; [reflexivity | left; reflexivity] | apply weaker_refl].
  - constructor; [split; [reflexivity | right; reflexivity] | exact IH].
  - constructor; [split; [reflexivity | right; reflexivity] | exact IH].
Qed.

(** [cache_remove] clears the only element holding [p]. *)
Lemma cache_remove_paths (c : list cache_element) (p : list bool) :
  NoDup (cache_paths c) ->
  NoDup (cache_paths (cache_remove c p)) /\ ~ In p (cache_paths (cache_remove c p)) /\
  incl (cache_paths (cache_remove c p)) (cache_paths c).
Proof.
  induction c as [|e c IH]; intros ND.
  - split; [constructor|]. split; [intros []|intros x []].
  - cbn [cache_remove cache_paths] in *. destruct (cptr e) as [q|] eqn:E.
    + inversion ND as [|? ? Hq ND']; subst.
      destruct (path_eqb q p) eqn:Pq.
      * apply path_eqb_true in Pq. subst q. cbn [cptr cache_paths].
        split; [exact ND'|]. split; [exact Hq|]. intros x Hx. right. exact Hx.
      * cbn [cache_paths]. rewrite E. destruct (IH ND') as [N1 [N2 N3]].
        split; [constructor; [intro H; apply Hq, N3, H | exact N1]|].
        split.
        -- intros [H|H]; [subst; rewrite (proj2 (path_eqb_true p p) eq_refl) in Pq;
                          discriminate | exact (N2 H)].
        -- intros x [H|H]; [left; exact H | right; apply N3, H].
    + cbn [cache_paths]. rewrite E. exact (IH ND).
Qed.

Lemma slots_transfer (r r' : node) (c' c : list cache_element) :
  Forall2 slot_weaker c' c -> Forall (slot_ok r) c ->
  (forall q, In q (cache_paths c') -> nonnull (subnode r' q) = true) ->
  Forall (slot_ok r') c'.
Proof.
  induction 1 as [|e' e c' c [Ha Hp] _ IH]; intros Hc Hq; [constructor|].
  inversion Hc as [|? ? [Be Se] Hc']; subst. constructor.
  - split; [rewrite Ha; exact Be|].
    destruct (cptr e') as [q|] eqn:E'; [|exact I].
    destruct Hp as [Hn|Hs]; [discriminate|]. rewrite <- Hs in Se.
    destruct Se as [_ [k Hk]]. split.
    + apply Hq. cbn [cache_paths]. rewrite E'. left. reflexivity.
    + exists k. rewrite Ha. exact Hk.
  - apply IH; [exact Hc'|]. intros q Hin. apply Hq. cbn [cache_paths].
    destruct (cptr e'); [right|]; exact Hin.
Qed.

Lemma slots_root_change (r r' : node) (c : list cache_element) :
  Forall (slot_ok r) c ->
  (forall q, nonnull (subnode r q) = true -> nonnull (subnode r' q) = true) ->
  Forall (slot_ok r') c.
Proof.
  intros H Hq. eapply Forall_impl; [|exact H]. intros e [Be Se]. split; [exact Be|].
  destruct (cptr e); [|exact I]. destruct Se as [S1 S2]. split; [apply Hq, S1 | exact S2].
Qed.

Lemma slot_ok_present (r : node) (c : list cache_element) (q : list bool) :
  Forall (slot_ok r) c -> In q (cache_paths c) -> nonnull (subnode r q) = true.
Proof.
  intros H Hq. apply in_cache_paths in Hq. destruct Hq as [e [Hin He]].
  rewrite Forall_forall in H. destruct (H e Hin) as [_ Se]. rewrite He in Se. apply Se.
Qed.

Lemma set_nth_forall {A} (P : A -> Prop) (l : list A) (i : nat) (x : A) :
  Forall P l -> P x -> Forall P (set_nth l i x).
Proof.
  revert i. induction l as [|y l IH]; intros i H Hx; [constructor|].
  inversion H; subst. destruct i; cbn [set_nth]; constructor; auto.
Qed.

Lemma in_paths_set_nth (c : list cache_element) (i : nat) (a : list Z) (p q : list bool) :
  In q (cache_paths (set_nth c i (mk_cache_element a (Some p)))) ->
  q = p \/ In q (cache_paths c).
Proof.
  revert i. induction c as [|e c IH]; intros i H; [destruct H|].
  destruct i; cbn [set_nth cache_paths cptr] in H |- *.
  - destruct H as [<-|H]; [left; reflexivity | right].
    destruct (cptr e); [right|]; exact H.
  - destruct (cptr e) as [q'|].
    + destruct H as [<-|H]; [right; left; reflexivity|].
      destruct (IH _ H) as [H'|H']; [left; exact H' | right; right; exact H'].
    + destruct (IH _ H) as [H'|H']; [left; exact H' | right; exact H'].
Qed.

Lemma nodup_set_nth (c : list cache_element) (i : nat) (a : list Z) (p : list bool) :
  NoDup (cache_paths c) -> (forall e, In e c -> cptr e <> Some p) ->
  NoDup (cache_paths (set_nth c i (mk_cache_element a (Some p)))).
Proof.
  revert i. induction c as [|e c IH]; intros i ND Hp; [constructor|].
  destruct i; cbn [set_nth cache_paths cptr] in *.
  - constructor.
    + intro H. apply in_cache_paths in H. destruct H as [e' [Hin He]].
      exact (Hp e' (or_intror Hin) He).
    + destruct (cptr e); [inversion ND; assumption | exact ND].
  - assert (Hp' : forall e', In e' c -> cptr e' <> Some p) by (intros; apply Hp; right; auto).
    destruct (cptr e) as [q|] eqn:E.
    + inversion ND as [|? ? Hq ND']; subst. constructor; [|apply IH; auto].
      intro H. destruct (in_paths_set_nth _ _ _ _ _ H) as [->|H'].
      * exact (Hp e (or_introl eq_refl) E).
      * exact (Hq H').
    + apply IH; auto.
Qed.

(** ** The tree under [add] and [prune] *)

Lemma add_at_present (n : node) (p : list bool) (val : Z) (n' : node) :
  add_at n p val = Ok n' -> forall q, nonnull (subnode n' q) = nonnull (subnode n q).
Proof.
  revert p n'. induction n as [|t a IHa b IHb]; intros p n' H q; [discriminate|].
  destruct p as [|[|] p']; cbn [add_at] in H.
  - injection H as <-. destruct q as [|[|] q]; reflexivity.
  - destruct (add_at b p' val) as [b'|f] eqn:E; cbn [bind] in H; [|discriminate].
    injection H as <-. destruct q as [|[|] q]; cbn [subnode]; [reflexivity | apply (IHb _ _ E) | reflexivity].
  - destruct (add_at a p' val) as [a'|f] eqn:E; cbn [bind] in H; [|discriminate].
    injection H as <-. destruct q as [|[|] q]; cbn [subnode]; [reflexivity | reflexivity | apply (IHa _ _ E)].
Qed.

Lemma add_at_present_ok (n : node) (p : list bool) (val : Z) :
  nonnull (subnode n p) = true -> exists n', add_at n p val = Ok n'.
Proof.
  revert n. induction p as [|[|] p IH]; intros [|t a b] H; try (simpl in H; discriminate).
  - eexists. reflexivity.
  - cbn [subnode] in H. destruct (IH b H) as [b' E]. exists (Node t a b').
    cbn [add_at]. rewrite E. reflexivity.
  - cbn [subnode] in H. destruct (IH a H) as [a' E]. exists (Node t a' b).
    cbn [add_at]. rewrite E. reflexivity.
Qed.

Lemma descend_add_present (bs : list bool) (n : node) (val : Z) (n' : node) (k : Z) :
  descend_add n bs val = (n', k) -> nonnull n = true ->
  nonnull (subnode n' bs) = true /\
  forall q, nonnull (subnode n q) = true -> nonnull (subnode n' q) = true.
Proof.
  revert n n' k. induction bs as [|[|] bs IH]; intros n n' k H Nn;
    (destruct n as [|t a b]; [discriminate|]); cbn [descend_add] in H.
  - injection H as <- _. split; [reflexivity|]. intros [|[|] q] Hq; exact Hq.
  - destruct (descend_add (fresh_if_null b) bs val) as [b' k'] eqn:E. injection H as <- _.
    assert (Fn : nonnull (fresh_if_null b) = true) by (destruct b; reflexivity).
    destruct (IH _ _ _ E Fn) as [H1 H2]. split; [exact H1|].
    intros [|[|] q] Hq; cbn [subnode] in *; [reflexivity | | exact Hq].
    apply H2. destruct b; [rewrite subnode_nil in Hq; discriminate | exact Hq].
  - destruct (descend_add (fresh_if_null a) bs val) as [a' k'] eqn:E. injection H as <- _.
    assert (Fn : nonnull (fresh_if_null a) = true) by (destruct a; reflexivity).
    destruct (IH _ _ _ E Fn) as [H1 H2]. split; [exact H1|].
    intros [|[|] q] Hq; cbn [subnode] in *; [reflexivity | exact Hq |].
    apply H2. destruct a; [rewrite subnode_nil in Hq; discriminate | exact Hq].
Qed.

Lemma subnode_app (n : node) (p r : list bool) :
  subnode n (p ++ r) = subnode (subnode n p) r.
Proof.
  revert n. induction p as [|[|] p IH]; intros [|t a b]; cbn [app subnode];
    rewrite ?subnode_nil; auto; destruct r as [|[|] r]; reflexivity.
Qed.

(** Replacing the node at [P] keeps every node not strictly below [P]. *)
Lemma replace_at_present (n : node) (P : list bool) (m : node) (q : list bool) :
  nonnull (subnode n P) = true -> nonnull m = true -> nonnull (subnode n q) = true ->
  (forall r, q = P ++ r -> r = []) ->
  nonnull (subnode (replace_at n P m) q) = true.
Proof.
  revert n q. induction P as [|b P IH]; intros n q HP Hm Hq Hr.
  - specialize (Hr q eq_refl). subst q. destruct n, m; simpl in *; auto.
  - destruct n as [|t a c]; [rewrite subnode_nil in HP; discriminate|].
    destruct b; (destruct q as [|[|] q]; [reflexivity|..]); cbn [replace_at subnode] in *;
      try exact Hq; apply IH; auto; intros r Hr'; apply Hr; rewrite Hr'; reflexivity.
Qed.

Lemma prune_cache_ok (r : node) (P : list bool) (ts ts1 : Z) (p0 p1 : node)
    (c c' : list cache_element) :
  subnode r P = Node ts p0 p1 ->
  (nonnull p0 = true -> term p0 = true) -> (nonnull p1 = true -> term p1 = true) ->
  Forall (slot_ok r) c -> Forall2 slot_weaker c' c -> NoDup (cache_paths c') ->
  (forall q, In q (cache_paths c') ->
     In q (cache_paths c) /\ (nonnull p0 = true -> q <> P ++ [false]) /\
     (nonnull p1 = true -> q <> P ++ [true])) ->
  Forall (slot_ok (replace_at r P (Node ts1 Nil Nil))) c' /\ NoDup (cache_paths c').
Proof.
  intros S T0 T1 Hc Hw ND Hx. split; [|exact ND].
  apply (slots_transfer r _ c' c Hw Hc). intros q Hq.
  destruct (Hx q Hq) as [Hin [N0 N1]].
  pose proof (slot_ok_present _ _ _ Hc Hin) as Hp.
  apply replace_at_present; [rewrite S; reflexivity | reflexivity | exact Hp |].
  intros rr Hrr. destruct rr as [|cb rr]; [reflexivity|]. exfalso. subst q.
  rewrite subnode_app, S in Hp. destruct cb; cbn [subnode] in Hp.
  - destruct p1 as [|t1 x y]; [rewrite subnode_nil in Hp; discriminate|].
    destruct (term_leaf _ _ _ (T1 eq_refl)) as [-> ->].
    destruct rr as [|[|] rr]; [exact (N1 eq_refl eq_refl)|..];
      cbn [subnode] in Hp; rewrite ?subnode_nil in Hp; destruct rr as [|[|] ?]; discriminate.
  - destruct p0 as [|t0 x y]; [rewrite subnode_nil in Hp; discriminate|].
    destruct (term_leaf _ _ _ (T0 eq_refl)) as [-> ->].
    destruct rr as [|[|] rr]; [exact (N0 eq_refl eq_refl)|..];
      cbn [subnode] in Hp; rewrite ?subnode_nil in Hp; destruct rr as [|[|] ?]; discriminate.
Qed.

Lemma node_prune_cache (tr : tree) (P : list bool) (tr' : tree) (z : Z) :
  node_prune tr P = Ok (tr', z) -> cache_ok tr -> cache_ok tr'.
Proof.
  intros H [Hs Hn]. unfold node_prune in H.
  destruct (subnode (root tr) P) as [|ts p0 p1] eqn:S; [discriminate|].
  destruct p0 as [|t0 x0 y0]; [| destruct (term (Node t0 x0 y0)) eqn:T0; [|discriminate]];
  (destruct p1 as [|t1 x1 y1];
    [| destruct (term (Node t1 x1 y1)) eqn:T1; [| cbn [bind] in H; discriminate]]);
  cbn [bind] in H; injection H as <- _; unfold cache_ok; cbn [root cache set_root forget_child].
  - eapply prune_cache_ok; eauto; try (intro; discriminate); [apply weaker_refl|].
    intros q Hq. split; [exact Hq|]. split; intro; discriminate.
  - destruct (cache_remove_paths (cache tr) (P ++ [true]) Hn) as [N1 [N2 N3]].
    eapply prune_cache_ok; eauto; try (intro; discriminate); [apply cache_remove_weaker|].
    intros q Hq. split; [apply N3, Hq|]. split; [intro; discriminate|].
    intros _ E. subst. exact (N2 Hq).
  - destruct (cache_remove_paths (cache tr) (P ++ [false]) Hn) as [N1 [N2 N3]].
    eapply prune_cache_ok; eauto; try (intro; discriminate); [apply cache_remove_weaker|].
    intros q Hq. split; [apply N3, Hq|]. split; [|intro; discriminate].
    intros _ E. subst. exact (N2 Hq).
  - destruct (cache_remove_paths (cache tr) (P ++ [false]) Hn) as [N1 [N2 N3]].
    destruct (cache_remove_paths _ (P ++ [true]) N1) as [M1 [M2 M3]].
    eapply prune_cache_ok; eauto.
    + eapply weaker_trans; apply cache_remove_weaker.
    + intros q Hq. split; [apply N3, M3, Hq|]. split.
      * intros _ E. subst. exact (N2 (M3 _ Hq)).
      * intros _ E. subst. exact (M2 Hq).
Qed.

Lemma prune_cache (tr tr' : tree) (z : Z) :
  prune tr = Ok (tr', z) -> cache_ok tr -> cache_ok tr'.
Proof.
  unfold prune. intros H G. destruct (term (root tr)).
  - injection H as <- _. exact G.
  - destruct (best_to_prune (root tr) 0) as [[p d]|f]; cbn [bind fst] in H; [|discriminate].
    exact (node_prune_cache _ _ _ _ H G).
Qed.

Lemma prune_loop_cache (fuel : nat) (tr tr' : tree) :
  prune_loop fuel tr = Ok tr' -> cache_ok tr -> cache_ok tr'.
Proof.
  revert tr. induction fuel as [|fuel IH]; intros tr0 H G; cbn [prune_loop] in H.
  - injection H as <-. exact G.
  - destruct (_ <? _)%Z; [|injection H as <-; exact G].
    destruct (prune tr0) as [[tr1 z]|f] eqn:E; cbn [bind fst snd] in H; [|discriminate].
    pose proof (prune_cache _ _ _ E G) as G1.
    destruct (z =? 0)%Z; [injection H as <-; exact G1 | exact (IH _ H G1)].
Qed.

Lemma prune_if_greater_cache (tr tr' : tree) (limit : Z) :
  prune_if_greater tr limit = Ok tr' -> cache_ok tr -> cache_ok tr'.
Proof.
  unfold prune_if_greater. intros H G. destruct (_ <=? _)%Z.
  - exact (prune_loop_cache _ _ _ H G).
  - injection H as <-. exact G.
Qed.

Lemma add_cache (tr : tree) (a : list Z) (l : nat) (v : Z) (tr' : tree) :
  add tr a l v = Ok tr' -> Forall is_byte a -> good_root (root tr) -> cache_ok tr ->
  cache_ok tr'.
Proof.
  unfold add. intros H Ba G C.
  destruct (prune_if_greater tr (maxnodes tr)) as [tr1|f] eqn:E1; cbn [bind] in H;
    [|discriminate].
  destruct (prune_if_greater_inv _ _ _ E1 G) as [[_ N1] _].
  pose proof (prune_if_greater_cache _ _ _ E1 C) as [Hs Hn].
  unfold cache_search in H.
  match type of H with
  | context [cache_scan (cache tr1) a ?len 0] =>
      set (l' := len) in H; destruct (cache_scan (cache tr1) a l' 0) as [j|] eqn:Sc
  end; cbn [cache root] in H.
  - destruct (cptr (nth j (cache tr1) (mk_cache_element [] None))) as [p|] eqn:Ep; [|discriminate].
    destruct (add_at (root tr1) p v) as [r|f] eqn:E3; cbn [bind] in H; [|discriminate].
    injection H as <-. unfold cache_ok. cbn [root cache set_root]. split; [|exact Hn].
    apply (slots_root_change (root tr1)); [exact Hs|].
    intros q Hq. rewrite (add_at_present _ _ _ _ E3 q). exact Hq.
  - match type of H with
    | context [descend_add (root tr1) ?bs v] =>
        set (bs0 := bs) in H; destruct (descend_add (root tr1) bs0 v) as [r k] eqn:E3
    end.
    injection H as <-.
    destruct (descend_add_present _ _ _ _ _ E3 N1) as [Pb Pq].
    unfold cache_ok, cache_replace. cbn [root cache].
    set (next := if Nat.leb _ _ then O else S _).
    set (old := nth next (cache tr1) (mk_cache_element [] None)).
    assert (Bo : Forall is_byte (caddr old)).
    { unfold old. destruct (Nat.ltb_spec next (List.length (cache tr1))).
      - rewrite Forall_forall in Hs. apply (Hs _ (nth_In _ _ H)).
      - rewrite nth_overflow by exact H. constructor. }
    split.
    + apply set_nth_forall.
      * exact (slots_root_change _ _ _ Hs Pq).
      * split; [apply memcpy_bytes; assumption|]. cbn [cptr caddr].
        split; [exact Pb|]. exists l'. unfold bs0. rewrite key_bits_memcpy. reflexivity.
    + apply nodup_set_nth; [exact Hn|]. intros e Hin He.
      assert (Hm : memeq (caddr e) a l' = false)
        by (apply (cache_scan_none _ _ _ _ Sc e Hin); congruence).
      rewrite Forall_forall in Hs. destruct (Hs e Hin) as [Be Se]. rewrite He in Se.
      destruct Se as [_ [k' Hk]].
      assert (Hl : (k' * 8 = l' * 8)%nat).
      { rewrite <- (key_bits_length (caddr e) (k' * 8)), <- Hk.
        unfold bs0. apply key_bits_length. }
      assert (k' = l') by lia. subst k'.
      unfold memeq in Hm. rewrite (key_bits_bytes (caddr e) a l' Be Ba) in Hm.
      * destruct (list_eq_dec Z.eq_dec (bytes l' a) (bytes l' a)); [discriminate | congruence].
      * rewrite <- Hk. reflexivity.
Qed.

Lemma step_cache (tr : tree) (o : op) (tr' : tree) :
  step tr o = Ok tr' -> op_bytes o -> good_root (root tr) -> cache_ok tr -> cache_ok tr'.
Proof.
  destruct o as [a l v| |limit]; cbn [step op_bytes]; intros H B G C.
  - exact (add_cache _ _ _ _ _ H B G C).
  - destruct (prune tr) as [[tr1 z]|f] eqn:E; cbn [bind fst] in H; [|discriminate].
    injection H as <-. exact (prune_cache _ _ _ E C).
  - exact (prune_if_greater_cache _ _ _ H C).
Qed.

Lemma run_cache (ops : list op) (tr tr' : tree) :
  run tr ops = Ok tr' -> Forall op_bytes ops -> good_root (root tr) -> cache_ok tr ->
  cache_ok tr'.
Proof.
  revert tr. induction ops as [|o ops IH]; intros tr H B G C; cbn [run] in H.
  - injection H as <-. exact C.
  - destruct (step tr o) as [tr1|f] eqn:E; cbn [bind] in H; [|discriminate].
    inversion B; subst.
    destruct (step_inv _ _ _ E G) as [G1 _].
    exact (IH _ H H3 G1 (step_cache _ _ _ E H2 G C)).
Qed.

Lemma new_tree_cache_ok (ADDRBYTES : nat) (maxnodes_ : Z) :
  cache_ok (new_tree ADDRBYTES maxnodes_).
Proof.
  split; [|constructor]. cbn [cache new_tree].
  apply Forall_forall. intros e He. apply repeat_spec in He. subst e.
  split; [apply zeros_bytes | exact I].
Qed.

(** After its pruning step, [add] always completes when the cache
    invariant holds. *)
Lemma add_after_prune (tr tr1 : tree) (a : list Z) (l : nat) (v : Z) :
  prune_if_greater tr (maxnodes tr) = Ok tr1 -> cache_ok tr1 ->
  exists tr', add tr a l v = Ok tr'.
Proof.
  intros E1 [Hs _]. unfold add. rewrite E1. cbn [bind]. unfold cache_search.
  match goal with
  | |- context [cache_scan (cache tr1) a ?len 0] => destruct (cache_scan (cache tr1) a len 0) as [j|] eqn:Sc
  end; cbn [cache root].
  - destruct (cache_scan_some _ _ _ _ _ Sc) as [_ [q Hq]]. rewrite Nat.sub_0_r in Hq.
    change (mk_cache_element [] None) with no_slot. rewrite Hq.
    rewrite Forall_forall in Hs. destruct (Hs _ (nth_in_use _ _ _ Hq)) as [_ Se].
    rewrite Hq in Se. destruct Se as [Pq _].
    destruct (add_at_present_ok _ _ v Pq) as [r E3]. rewrite E3. eexists. reflexivity.
  - match goal with
    | |- context [descend_add (root tr1) ?bs v] => destruct (descend_add (root tr1) bs v)
    end.
    eexists. reflexivity.
Qed.

(** ** Faults of the selector and of [prune] *)

Lemma best_to_prune_fault (n : node) (d : nat) (f : fault) :
  best_to_prune n d = Abort f -> f = NullDeref \/ f = AssertFailure.
Proof.
  revert d f. induction n as [|t a IHa b IHb]; intros d f H.
  - injection H as <-. left. reflexivity.
  - cbn [best_to_prune] in H.
    destruct (best_to_prune a (S d)) as [[q0 e0]|f0] eqn:Ba;
    destruct (best_to_prune b (S d)) as [[q1 e1]|f1] eqn:Bb;
    destruct (term (Node t a b));
    try (injection H as <-; right; reflexivity);
    destruct a as [|ta a0 a1]; destruct b as [|tb b0 b1];
    try destruct (term (Node ta a0 a1)); try destruct (term (Node tb b0 b1));
    cbn [nonnull andb negb orb in_child] in H;
    repeat match type of H with context [if ?c then _ else _] => destruct c end;
    try discriminate; injection H as <-; eauto.
Qed.

Lemma prune_fault (tr : tree) (f : fault) :
  prune tr = Abort f -> f = NullDeref \/ f = AssertFailure.
Proof.
  unfold prune. intros H. destruct (term (root tr)); [discriminate|].
  destruct (best_to_prune (root tr) 0) as [[p d]|f0] eqn:B; cbn [bind fst] in H.
  - unfold node_prune in H. destruct (subnode (root tr) p) as [|ts p0 p1];
      [injection H as <-; left; reflexivity|].
    destruct p0 as [|t0 x0 y0]; [| destruct (term (Node t0 x0 y0))];
    try (destruct p1 as [|t1 x1 y1]; [| destruct (term (Node t1 x1 y1))]);
    cbn [bind] in H; try discriminate; injection H as <-; right; reflexivity.
  - injection H as <-. exact (best_to_prune_fault _ _ _ B).
Qed.

Lemma prune_loop_fault (fuel : nat) (tr : tree) (f : fault) :
  prune_loop fuel tr = Abort f -> f = NullDeref \/ f = AssertFailure.
Proof.
  revert tr. induction fuel as [|fuel IH]; intros tr0 H; cbn [prune_loop] in H; [discriminate|].
  destruct (_ <? _)%Z; [|discriminate].
  destruct (prune tr0) as [[tr1 z]|f0] eqn:E; cbn [bind fst snd] in H.
  - destruct (z =? 0)%Z; [discriminate | exact (IH _ H)].
  - injection H as <-. exact (prune_fault _ _ E).
Qed.

Lemma prune_if_greater_fault (tr : tree) (limit : Z) (f : fault) :
  prune_if_greater tr limit = Abort f -> f = NullDeref \/ f = AssertFailure.
Proof.
  unfold prune_if_greater. intros H. destruct (_ <=? _)%Z; [|discriminate].
  exact (prune_loop_fault _ _ _ H).
Qed.

(** X: in every state reached from a new tree by calls on [uint8_t]
    addresses the cache is consistent ([cache_ok]): each element in use
    points to an existing node, whose path is the bits of the first
    bytes of the element's address, and no two elements in use point to
    the same node.  Hence [add] never follows a dangling cache pointer:
    it can only fail in its initial [prune_if_greater], with the null
    dereference or the assertion failure of the pruning code, never
    [UseAfterFree]. *)
Theorem add_fails_only_in_prune (ADDRBYTES : nat) (maxnodes_ : Z) (ops : list op)
    (tr : tree) (a : list Z) (l : nat) (v : Z) (f : fault) :
  Forall op_bytes ops -> Forall is_byte a ->
  run (new_tree ADDRBYTES maxnodes_) ops = Ok tr ->
  cache_ok tr /\
  (add tr a l v = Abort f ->
   prune_if_greater tr (maxnodes tr) = Abort f /\ f <> UseAfterFree).
Proof.
  intros B Ba H.
  assert (G0 : good_root (root (new_tree ADDRBYTES maxnodes_)))
    by (split; [simpl; pose proof W_pos; lia | reflexivity]).
  destruct (run_inv _ _ _ H G0) as [G _].
  pose proof (run_cache _ _ _ H B G0 (new_tree_cache_ok _ _)) as C.
  split; [exact C|]. intros Hf.
  destruct (prune_if_greater tr (maxnodes tr)) as [tr1|f0] eqn:E1.
  - destruct (add_after_prune _ _ a l v E1 (prune_if_greater_cache _ _ _ E1 C)) as [tr' E].
    congruence.
  - assert (f0 = f) as <- by (unfold add in Hf; rewrite E1 in Hf; injection Hf; auto).
    split; [reflexivity|]. destruct (prune_if_greater_fault _ _ _ E1) as [-> | ->]; discriminate.
Qed.

Lemma add_fails_only_in_prune_witness :
  exists tr, run (new_tree 4 1) [OpAdd [10; 0; 0; 1]%Z 4 0%Z] = Ok tr /\
    add tr [10; 0; 0; 2]%Z 4 1%Z = Abort NullDeref /\
    cache_ok tr /\
    (add tr [10; 0; 0; 2]%Z 4 1%Z = Abort NullDeref ->
     prune_if_greater tr (maxnodes tr) = Abort NullDeref /\ NullDeref <> UseAfterFree).
Proof.
  eexists. split; [cbv; reflexivity|]. split; [cbv; reflexivity|].
  apply (add_fails_only_in_prune 4 1 [OpAdd [10; 0; 0; 1]%Z 4 0%Z] _ [10; 0; 0; 2]%Z 4 1%Z).
  - constructor; [|constructor]. cbn [op_bytes].
    repeat constructor; try unfold is_byte; lia.
  - repeat constructor; try unfold is_byte; lia.
  - cbv. reflexivity.
Defined.

End CacheProps.

(** * Node counting and the pruning loop *)

Module PruneProps.
Import IPTree IPTreeProps CacheProps.

(** The number of allocated nodes of a subtree. *)
Fixpoint node_count (n : node) : nat :=
  match n with
  | Nil => O
  | Node _ a b => S (node_count a + node_count b)
  end.

(** [node::children()] *)
Definition children (n : node) : nat :=
  match n with
  | Nil => O
  | Node _ a b => ((if nonnull a then 1 else 0) + (if nonnull b then 1 else 0))%nat
  end.

(** The bound the loop of [prune_if_greater] prunes down to,
    [maxnodes * 9 / 10] in [size_t] arithmetic. *)
Definition prune_threshold (tr : tree) : Z := (maxnodes tr * 9 mod 2 ^ 64 / 10)%Z.

(** The bookkeeping of the node counters. *)
Definition counts_ok (tr : tree) : Prop :=
  nodes tr = (Z.of_nat (node_count (root tr)) - 1)%Z /\
  nodes tr = (ctr_added tr - pruned tr)%Z.

(** The number of [add] calls in a sequence of calls. *)
Fixpoint adds (ops : list op) : nat :=
  match ops with
  | [] => O
  | OpAdd _ _ _ :: ops' => S (adds ops')
  | _ :: ops' => adds ops'
  end.

(** ** The selector returns a node with a child, all of whose children are terminal *)

Lemma best_to_prune_candidate (n : node) (d0 : nat) (p : list bool) (d : nat) :
  best_to_prune n d0 = Ok (p, d) -> is_candidate n p = true.
Proof.
  revert d0 p d. induction n as [|t a IHa b IHb]; intros d0 p d H; [discriminate|].
  cbn [best_to_prune] in H.
  destruct (term (Node t a b)) eqn:Tn; [discriminate|].
  destruct (best_to_prune a (S d0)) as [[q0 e0]|f0] eqn:Ba;
  destruct (best_to_prune b (S d0)) as [[q1 e1]|f1] eqn:Bb;
  destruct a as [|ta a0 a1]; destruct b as [|tb b0 b1];
  try destruct (term (Node ta a0 a1)) eqn:Ta; try destruct (term (Node tb b0 b1)) eqn:Tb;
  cbn [nonnull andb negb orb in_child] in H;
  repeat match type of H with context [if ?c then _ else _] => destruct c end;
  try discriminate; injection H as <- <-;
  first [ rewrite candidate_here; cbn [nonnull andb negb orb];
          try rewrite Ta; try rewrite Tb; reflexivity
        | rewrite candidate_left; exact (IHa _ _ _ Ba)
        | rewrite candidate_right; exact (IHb _ _ _ Bb) ].
Qed.

Lemma candidate_children (n : node) (p : list bool) :
  is_candidate n p = true -> (1 <= children (subnode n p))%nat.
Proof.
  unfold is_candidate. destruct (subnode n p) as [|t a b]; [discriminate|].
  destruct a, b; cbn; lia.
Qed.

(** ** Counting *)

Lemma replace_at_count (n : node) (P : list bool) (m : node) :
  nonnull (subnode n P) = true ->
  (node_count (replace_at n P m) + node_count (subnode n P) = node_count n + node_count m)%nat.
Proof.
  revert n. induction P as [|b P IH]; intros n H.
  - destruct n; [discriminate|]. cbn [replace_at subnode]. lia.
  - destruct n as [|t a c]; [rewrite subnode_nil in H; discriminate|].
    destruct b; cbn [replace_at subnode node_count] in *;
      [specialize (IH c H) | specialize (IH a H)]; lia.
Qed.

Lemma term_count (n : node) : term n = true -> node_count n = 1%nat.
Proof.
  destruct n as [|t a b]; [discriminate|]. intros H.
  destruct (term_leaf _ _ _ H) as [-> ->]. reflexivity.
Qed.

(** What [node::prune] does to the counters and to the tree. *)
Lemma node_prune_effect (tr : tree) (P : list bool) (tr' : tree) (z : Z) :
  node_prune tr P = Ok (tr', z) ->
  z = 1%Z /\
  nodes tr' = (nodes tr - Z.of_nat (children (subnode (root tr) P)))%Z /\
  pruned tr' = (pruned tr + Z.of_nat (children (subnode (root tr) P)))%Z /\
  (node_count (root tr') + children (subnode (root tr) P) = node_count (root tr))%nat /\
  maxnodes tr' = maxnodes tr /\ ctr_added tr' = ctr_added tr /\
  cache_hits tr' = cache_hits tr /\ cache_misses tr' = cache_misses tr.
Proof.
  intros H. unfold node_prune in H.
  destruct (subnode (root tr) P) as [|ts p0 p1] eqn:S; [discriminate|].
  assert (Nn : nonnull (subnode (root tr) P) = true) by (rewrite S; reflexivity).
  pose proof (replace_at_count (root tr) P (Node 0 Nil Nil) Nn) as RC.
  destruct p0 as [|t0 x0 y0]; [| destruct (term (Node t0 x0 y0)) eqn:T0; [|discriminate]];
  (destruct p1 as [|t1 x1 y1];
    [| destruct (term (Node t1 x1 y1)) eqn:T1; [| cbn [bind] in H; discriminate]]);
  cbn [bind] in H; injection H as <- <-; cbn [root nodes pruned maxnodes ctr_added
    cache_hits cache_misses set_root forget_child children nonnull];
  try (destruct (term_leaf _ _ _ T0) as [-> ->]);
  try (destruct (term_leaf _ _ _ T1) as [-> ->]);
  rewrite S in RC; cbn [node_count] in RC;
  repeat split; try lia;
  match goal with
  | |- (node_count (replace_at _ P ?m) + _ = _)%nat =>
      pose proof (replace_at_count (root tr) P m Nn) as RC'; rewrite S in RC';
      cbn [node_count] in RC, RC'; lia
  end.
Qed.

Lemma add_at_count (n : node) (p : list bool) (val : Z) (n' : node) :
  add_at n p val = Ok n' -> node_count n' = node_count n.
Proof.
  revert p n'. induction n as [|t a IHa b IHb]; intros p n' H; [discriminate|].
  destruct p as [|[|] p']; cbn [add_at] in H.
  - injection H as <-. reflexivity.
  - destruct (add_at b p' val) as [b'|f] eqn:E; cbn [bind] in H; [|discriminate].
    injection H as <-. cbn [node_count]. rewrite (IHb _ _ E). reflexivity.
  - destruct (add_at a p' val) as [a'|f] eqn:E; cbn [bind] in H; [|discriminate].
    injection H as <-. cbn [node_count]. rewrite (IHa _ _ E). reflexivity.
Qed.

Lemma fresh_if_null_count (n : node) :
  Z.of_nat (node_count (fresh_if_null n)) = (Z.of_nat (node_count n) + created n)%Z.
Proof. destruct n; cbn; lia. Qed.

Lemma descend_add_count (bs : list bool) (n : node) (val : Z) (n' : node) (k : Z) :
  descend_add n bs val = (n', k) -> nonnull n = true ->
  Z.of_nat (node_count n') = (Z.of_nat (node_count n) + k)%Z.
Proof.
  revert n n' k. induction bs as [|[|] bs IH]; intros n n' k H Nn;
    (destruct n as [|t a b]; [discriminate|]); cbn [descend_add] in H.
  - injection H as <- <-. cbn [node_count]. lia.
  - destruct (descend_add (fresh_if_null b) bs val) as [b' k'] eqn:E. injection H as <- <-.
    assert (Fn : nonnull (fresh_if_null b) = true) by (destruct b; reflexivity).
    pose proof (IH _ _ _ E Fn). pose proof (fresh_if_null_count b).
    cbn [node_count]. lia.
  - destruct (descend_add (fresh_if_null a) bs val) as [a' k'] eqn:E. injection H as <- <-.
    assert (Fn : nonnull (fresh_if_null a) = true) by (destruct a; reflexivity).
    pose proof (IH _ _ _ E Fn). pose proof (fresh_if_null_count a).
    cbn [node_count]. lia.
Qed.

(** One call of [prune]: either the root is terminal and nothing
    changes, or one or two nodes are deleted. *)
Lemma prune_effect (tr tr' : tree) (z : Z) :
  prune tr = Ok (tr', z) ->
  (term (root tr) = true /\ z = 0%Z /\ tr' = tr) \/
  (term (root tr) = false /\ z = 1%Z /\
   exists k, (1 <= k <= 2)%nat /\
     nodes tr' = (nodes tr - Z.of_nat k)%Z /\ pruned tr' = (pruned tr + Z.of_nat k)%Z /\
     (node_count (root tr') + k = node_count (root tr))%nat /\
     maxnodes tr' = maxnodes tr /\ ctr_added tr' = ctr_added tr /\
     cache_hits tr' = cache_hits tr /\ cache_misses tr' = cache_misses tr).
Proof.
  unfold prune. intros H. destruct (term (root tr)) eqn:T.
  - injection H as <- <-. left. auto.
  - right. destruct (best_to_prune (root tr) 0) as [[p d]|f] eqn:B; cbn [bind fst] in H;
      [|discriminate].
    pose proof (candidate_children _ _ (best_to_prune_candidate _ _ _ _ B)) as C.
    destruct (node_prune_effect _ _ _ _ H) as [Z1 R]. split; [reflexivity|]. split; [exact Z1|].
    exists (children (subnode (root tr) p)). split; [|exact R].
    split; [exact C|]. destruct (subnode (root tr) p) as [|t a b]; [cbn; lia|].
    destruct a, b; cbn; lia.
Qed.

Lemma counts_prune (tr tr' : tree) (z : Z) :
  prune tr = Ok (tr', z) -> counts_ok tr -> counts_ok tr'.
Proof.
  intros H [C1 C2]. destruct (prune_effect _ _ _ H) as [[_ [_ ->]]|[_ [_ [k [_ R]]]]];
    [split; assumption|].
  destruct R as [R1 [R2 [R3 [_ [R5 _]]]]]. split; lia.
Qed.

Lemma counts_prune_loop (fuel : nat) (tr tr' : tree) :
  prune_loop fuel tr = Ok tr' -> counts_ok tr -> counts_ok tr'.
Proof.
  revert tr. induction fuel as [|fuel IH]; intros tr0 H G; cbn [prune_loop] in H.
  - injection H as <-. exact G.
  - destruct (_ <? _)%Z; [|injection H as <-; exact G].
    destruct (prune tr0) as [[tr1 z]|f] eqn:E; cbn [bind fst snd] in H; [|discriminate].
    pose proof (counts_prune _ _ _ E G) as G1.
    destruct (z =? 0)%Z; [injection H as <-; exact G1 | exact (IH _ H G1)].
Qed.

Lemma counts_prune_if_greater (tr tr' : tree) (limit : Z) :
  prune_if_greater tr limit = Ok tr' -> counts_ok tr -> counts_ok tr'.
Proof.
  unfold prune_if_greater. intros H G. destruct (_ <=? _)%Z.
  - exact (counts_prune_loop _ _ _ H G).
  - injection H as <-. exact G.
Qed.

Lemma counts_add (tr : tree) (a : list Z) (l : nat) (v : Z) (tr' : tree) :
  add tr a l v = Ok tr' -> good_root (root tr) -> counts_ok tr -> counts_ok tr'.
Proof.
  unfold add. intros H G C.
  destruct (prune_if_greater tr (maxnodes tr)) as [tr1|f] eqn:E1; cbn [bind] in H;
    [|discriminate].
  destruct (prune_if_greater_inv _ _ _ E1 G) as [[_ N1] _].
  destruct (counts_prune_if_greater _ _ _ E1 C) as [C1 C2].
  unfold cache_search in H.
  match type of H with
  | context [cache_scan (cache tr1) a ?len 0] => destruct (cache_scan (cache tr1) a len 0)
  end; cbn [cache root nodes ctr_added pruned] in H.
  - destruct (cptr _); [|discriminate].
    destruct (add_at (root tr1) _ v) as [r|f] eqn:E3; cbn [bind] in H; [|discriminate].
    injection H as <-. unfold counts_ok. cbn [root nodes ctr_added pruned set_root].
    rewrite (add_at_count _ _ _ _ E3). split; assumption.
  - match type of H with
    | context [descend_add (root tr1) ?bs v] => destruct (descend_add (root tr1) bs v) as [r k] eqn:E3
    end.
    injection H as <-. pose proof (descend_add_count _ _ _ _ _ E3 N1).
    unfold counts_ok, cache_replace. cbn [root nodes ctr_added pruned]. split; lia.
Qed.

Lemma run_counts (ops : list op) (tr tr' : tree) :
  run tr ops = Ok tr' -> good_root (root tr) -> counts_ok tr -> counts_ok tr'.
Proof.
  revert tr. induction ops as [|o ops IH]; intros tr H G C; cbn [run] in H.
  - injection H as <-. exact C.
  - destruct (step tr o) as [tr1|f] eqn:E; cbn [bind] in H; [|discriminate].
    destruct (step_inv _ _ _ E G) as [G1 _]. apply (IH _ H G1).
    destruct o as [a l v| |limit]; cbn [step] in E.
    + exact (counts_add _ _ _ _ _ E G C).
    + destruct (prune tr) as [[tr2 z]|f] eqn:P; cbn [bind fst] in E; [|discriminate].
      injection E as <-. exact (counts_prune _ _ _ P C).
    + exact (counts_prune_if_greater _ _ _ E C).
Qed.

(** The loop of [prune_if_greater] runs until the tree is small enough
    or its root is terminal, provided its fuel exceeds [nodes]. *)
Lemma prune_loop_post (fuel : nat) (tr tr' : tree) :
  prune_loop fuel tr = Ok tr' -> (nodes tr < Z.of_nat fuel)%Z ->
  maxnodes tr' = maxnodes tr /\
  ((nodes tr' <= prune_threshold tr')%Z \/ term (root tr') = true).
Proof.
  revert tr. induction fuel as [|fuel IH]; intros tr0 H F; cbn [prune_loop] in H.
  - injection H as <-. split; [reflexivity|]. left. unfold prune_threshold.
    pose proof (Z.mod_pos_bound (maxnodes tr0 * 9) (2 ^ 64) ltac:(lia)).
    pose proof (Z.div_pos (maxnodes tr0 * 9 mod 2 ^ 64) 10 ltac:(lia) ltac:(lia)). lia.
  - destruct (Z.ltb_spec (maxnodes tr0 * 9 mod 2 ^ 64 / 10) (nodes tr0)) as [L|L].
    + destruct (prune tr0) as [[tr1 z]|f] eqn:E; cbn [bind fst snd] in H; [|discriminate].
      destruct (prune_effect _ _ _ E) as [[T [-> ->]]|[_ [-> [k [Hk R]]]]].
      * cbn in H. injection H as <-. split; [reflexivity | right; exact T].
      * destruct R as [R1 [_ [_ [R4 _]]]]. cbn in H.
        destruct (IH _ H ltac:(lia)) as [M P]. split; [congruence | exact P].
    + injection H as <-. split; [reflexivity|]. left. unfold prune_threshold. lia.
Qed.

Lemma step_counters (tr : tree) (o : op) (tr' : tree) :
  step tr o = Ok tr' ->
  (cache_hits tr' + cache_misses tr' =
   cache_hits tr + cache_misses tr + match o with OpAdd _ _ _ => 1 | _ => 0 end)%Z.
Proof.
  assert (PL : forall fuel t t', prune_loop fuel t = Ok t' ->
             (cache_hits t' + cache_misses t' = cache_hits t + cache_misses t)%Z).
  { induction fuel as [|fuel IH]; intros t t' H; cbn [prune_loop] in H.
    - injection H as <-. reflexivity.
    - destruct (_ <? _)%Z; [|injection H as <-; reflexivity].
      destruct (prune t) as [[t1 z]|f] eqn:E; cbn [bind fst snd] in H; [|discriminate].
      destruct (prune_effect _ _ _ E) as [[_ [_ ->]]|[_ [_ [k [_ R]]]]].
      + destruct (z =? 0)%Z; [injection H as <-; reflexivity | exact (IH _ _ H)].
      + destruct R as [_ [_ [_ [_ [_ [R6 R7]]]]]].
        destruct (z =? 0)%Z; [injection H as <-; lia | rewrite (IH _ _ H); lia]. }
  assert (PG : forall t l t', prune_if_greater t l = Ok t' ->
             (cache_hits t' + cache_misses t' = cache_hits t + cache_misses t)%Z).
  { intros t l t' H. unfold prune_if_greater in H. destruct (_ <=? _)%Z;
      [exact (PL _ _ _ H) | injection H as <-; reflexivity]. }
  destruct o as [a l v| |limit]; cbn [step]; intros H.
  - unfold add in H.
    destruct (prune_if_greater tr (maxnodes tr)) as [tr1|f] eqn:E1; cbn [bind] in H;
      [|discriminate].
    pose proof (PG _ _ _ E1) as P1. unfold cache_search in H.
    match type of H with
    | context [cache_scan (cache tr1) a ?len 0] => destruct (cache_scan (cache tr1) a len 0)
    end; cbn [cache root cache_hits cache_misses] in H.
    + destruct (cptr _); [|discriminate].
      destruct (add_at (root tr1) _ v) as [r|f] eqn:E3; cbn [bind] in H; [|discriminate].
      injection H as <-. cbn [cache_hits cache_misses set_root]. lia.
    + match type of H with
      | context [descend_add (root tr1) ?bs v] => destruct (descend_add (root tr1) bs v)
      end.
      injection H as <-. unfold cache_replace. cbn [cache_hits cache_misses]. lia.
  - destruct (prune tr) as [[tr1 z]|f] eqn:E; cbn [bind fst] in H; [|discriminate].
    injection H as <-. destruct (prune_effect _ _ _ E) as [[_ [_ ->]]|[_ [_ [k [_ R]]]]];
      [lia|]. destruct R as [_ [_ [_ [_ [_ [R6 R7]]]]]]. lia.
  - rewrite (PG _ _ _ H). lia.
Qed.

(** Each call moves the cache counters separately: [add] bumps exactly
    one of them by one, the prunes leave both alone. *)
Lemma step_counters_each (tr : tree) (o : op) (tr' : tree) :
  step tr o = Ok tr' ->
  match o with
  | OpAdd _ _ _ =>
    (cache_hits tr' = cache_hits tr + 1 /\ cache_misses tr' = cache_misses tr)%Z \/
    (cache_hits tr' = cache_hits tr /\ cache_misses tr' = cache_misses tr + 1)%Z
  | _ => cache_hits tr' = cache_hits tr /\ cache_misses tr' = cache_misses tr
  end.
Proof.
  assert (PR : forall t t' z, prune t = Ok (t', z) ->
             cache_hits t' = cache_hits t /\ cache_misses t' = cache_misses t).
  { intros t t' z E. destruct (prune_effect _ _ _ E) as [[_ [_ ->]]|[_ [_ [k [_ R]]]]];
      [split; reflexivity|]. destruct R as [_ [_ [_ [_ [_ [R6 R7]]]]]]. split; assumption. }
  assert (PL : forall fuel t t', prune_loop fuel t = Ok t' ->
             cache_hits t' = cache_hits t /\ cache_misses t' = cache_misses t).
  { induction fuel as [|fuel IH]; intros t t' H; cbn [prune_loop] in H.
    - injection H as <-. split; reflexivity.
    - destruct (_ <? _)%Z; [|injection H as <-; split; reflexivity].
      destruct (prune t) as [[t1 z]|f] eqn:E; cbn [bind fst snd] in H; [|discriminate].
      destruct (PR _ _ _ E) as [P1 P2].
      destruct (z =? 0)%Z; [injection H as <-; split; assumption|].
      destruct (IH _ _ H) as [Q1 Q2]. split; congruence. }
  assert (PG : forall t l t', prune_if_greater t l = Ok t' ->
             cache_hits t' = cache_hits t /\ cache_misses t' = cache_misses t).
  { intros t l t' H. unfold prune_if_greater in H. destruct (_ <=? _)%Z;
      [exact (PL _ _ _ H) | injection H as <-; split; reflexivity]. }
  destruct o as [a l v| |limit]; cbn [step]; intros H.
  - unfold add in H.
    destruct (prune_if_greater tr (maxnodes tr)) as [tr1|f] eqn:E1; cbn [bind] in H;
      [|discriminate].
    destruct (PG _ _ _ E1) as [P1 P2]. unfold cache_search in H.
    match type of H with
    | context [cache_scan (cache tr1) a ?len 0] => destruct (cache_scan (cache tr1) a len 0)
    end; cbn [cache root cache_hits cache_misses] in H.
    + destruct (cptr _); [|discriminate].
      destruct (add_at (root tr1) _ v) as [r|f] eqn:E3; cbn [bind] in H; [|discriminate].
      injection H as <-. cbn [cache_hits cache_misses set_root]. left. lia.
    + match type of H with
      | context [descend_add (root tr1) ?bs v] => destruct (descend_add (root tr1) bs v)
      end.
      injection H as <-. unfold cache_replace. cbn [cache_hits cache_misses]. right. lia.
  - destruct (prune tr) as [[tr1 z]|f] eqn:E; cbn [bind fst] in H; [|discriminate].
    injection H as <-. exact (PR _ _ _ E).
  - exact (PG _ _ _ H).
Qed.

Lemma subnode_replace_at (n : node) (P : list bool) (m : node) :
  nonnull (subnode n P) = true -> subnode (replace_at n P m) P = m.
Proof.
  revert n. induction P as [|b P IH]; intros n H.
  - destruct n, m; reflexivity.
  - destruct n as [|t a c]; [rewrite subnode_nil in H; discriminate|].
    destruct b; cbn [replace_at subnode] in *; apply IH, H.
Qed.

(** [node::prune] leaves the node a leaf holding its former subtree sum. *)
Lemma node_prune_leaf (tr : tree) (P : list bool) (tr' : tree) (z : Z) :
  node_prune tr P = Ok (tr', z) ->
  subnode (root tr') P = Node (sum (subnode (root tr) P)) Nil Nil.
Proof.
  intros H. unfold node_prune in H.
  destruct (subnode (root tr) P) as [|ts p0 p1] eqn:S; [discriminate|].
  assert (Nn : nonnull (subnode (root tr) P) = true) by (rewrite S; reflexivity).
  destruct p0 as [|t0 x0 y0]; [| destruct (term (Node t0 x0 y0)) eqn:T0; [|discriminate]];
  (destruct p1 as [|t1 x1 y1];
    [| destruct (term (Node t1 x1 y1)) eqn:T1; [| cbn [bind] in H; discriminate]]);
  cbn [bind] in H; injection H as <- _;
  try (destruct (term_leaf _ _ _ T0) as [-> ->]);
  try (destruct (term_leaf _ _ _ T1) as [-> ->]);
  cbn [root set_root forget_child]; rewrite subnode_replace_at by exact Nn; reflexivity.
Qed.

(** X: in every state reached from a new tree, [size()] (the counter
    [nodes]) is the number of nodes below the root, and equals the
    nodes created by [add] minus the nodes deleted by pruning. *)
Theorem size_counts_nodes (ADDRBYTES : nat) (maxnodes_ : Z) (ops : list op) (tr : tree) :
  run (new_tree ADDRBYTES maxnodes_) ops = Ok tr ->
  size tr = (Z.of_nat (node_count (root tr)) - 1)%Z /\
  size tr = (ctr_added tr - pruned tr)%Z.
Proof.
  intros H. unfold size.
  apply (run_counts _ _ _ H).
  - split; [simpl; pose proof W_pos; lia | reflexivity].
  - split; reflexivity.
Qed.

Lemma size_counts_nodes_witness :
  exists tr, run (new_tree 4 10) [OpAdd (ip4 10 0 0 1) 4 100; OpAdd (ip4 10 0 0 2) 4 1; OpPrune]
             = Ok tr /\
    size tr = (Z.of_nat (node_count (root tr)) - 1)%Z /\ size tr = (ctr_added tr - pruned tr)%Z.
Proof.
  eexists. split; [cbv; reflexivity|].
  apply (size_counts_nodes 4 10 [OpAdd (ip4 10 0 0 1) 4 100; OpAdd (ip4 10 0 0 2) 4 1; OpPrune]).
  cbv. reflexivity.
Defined.

(** X: [prune()] returns 0 and changes nothing when the root is
    terminal; otherwise it returns 1 after [node::prune] on the node [p]
    that [best_to_prune] selects from the root (a node that has a child
    and whose children are all terminal): that node becomes a leaf
    holding its former subtree sum, and [nodes] and [pruned] move by its
    number of children. *)
Theorem prune_result (tr tr' : tree) (z : Z) :
  prune tr = Ok (tr', z) ->
  (term (root tr) = true /\ z = 0%Z /\ tr' = tr) \/
  (term (root tr) = false /\ z = 1%Z /\
   exists p d, best_to_prune (root tr) 0 = Ok (p, d) /\
     is_candidate (root tr) p = true /\
     subnode (root tr') p = Node (sum (subnode (root tr) p)) Nil Nil /\
     nodes tr' = (nodes tr - Z.of_nat (children (subnode (root tr) p)))%Z /\
     pruned tr' = (pruned tr + Z.of_nat (children (subnode (root tr) p)))%Z).
Proof.
  unfold prune. intros H. destruct (term (root tr)) eqn:T.
  - injection H as <- <-. left. auto.
  - right. destruct (best_to_prune (root tr) 0) as [[p d]|f] eqn:B; cbn [bind fst] in H;
      [|discriminate].
    destruct (node_prune_effect _ _ _ _ H) as [Z1 [R1 [R2 _]]].
    split; [reflexivity|]. split; [exact Z1|]. exists p, d. split; [reflexivity|].
    split; [exact (best_to_prune_candidate _ _ _ _ B)|].
    split; [exact (node_prune_leaf _ _ _ _ H)|]. split; assumption.
Qed.

Lemma prune_result_witness :
  exists tr0 tr' z,
    run (new_tree 4 10) [OpAdd (ip4 10 0 0 1) 4 100; OpAdd (ip4 10 0 0 2) 4 1] = Ok tr0 /\
    prune tr0 = Ok (tr', z) /\
    ((term (root tr0) = true /\ z = 0%Z /\ tr' = tr0) \/
     (term (root tr0) = false /\ z = 1%Z /\
      exists p d, best_to_prune (root tr0) 0 = Ok (p, d) /\
        is_candidate (root tr0) p = true /\
        subnode (root tr') p = Node (sum (subnode (root tr0) p)) Nil Nil /\
        nodes tr' = (nodes tr0 - Z.of_nat (children (subnode (root tr0) p)))%Z /\
        pruned tr' = (pruned tr0 + Z.of_nat (children (subnode (root tr0) p)))%Z)).
Proof.
  do 3 eexists. split; [cbv; reflexivity|]. split; [cbv; reflexivity|].
  apply prune_result. cbv. reflexivity.
Defined.

(** X: [prune_if_greater] keeps [maxnodes]; when it prunes at all
    ([nodes >= maxnodes]) it stops only once [nodes <= maxnodes*9/10] or
    the root is terminal. *)
Theorem prune_if_greater_post (tr tr' : tree) (limit : Z) :
  prune_if_greater tr limit = Ok tr' ->
  maxnodes tr' = maxnodes tr /\
  ((nodes tr < maxnodes tr /\ tr' = tr)%Z \/
   (nodes tr' <= prune_threshold tr')%Z \/ term (root tr') = true).
Proof.
  unfold prune_if_greater. intros H. destruct (Z.leb_spec (maxnodes tr) (nodes tr)) as [L|L].
  - destruct (prune_loop_post _ _ _ H ltac:(lia)) as [M P]. split; [exact M | right; exact P].
  - injection H as <-. split; [reflexivity|]. left. split; [exact L | reflexivity].
Qed.

Lemma prune_if_greater_post_witness :
  exists tr0 tr',
    run (new_tree 4 10) [OpAdd (ip4 10 0 0 1) 4 100; OpAdd (ip4 10 0 0 2) 4 1] = Ok tr0 /\
    prune_if_greater tr0 0 = Ok tr' /\
    maxnodes tr' = maxnodes tr0 /\
    ((nodes tr0 < maxnodes tr0 /\ tr' = tr0)%Z \/
     (nodes tr' <= prune_threshold tr')%Z \/ term (root tr') = true).
Proof.
  do 2 eexists. split; [cbv; reflexivity|]. split; [cbv; reflexivity|].
  apply (prune_if_greater_post _ _ 0). cbv. reflexivity.
Defined.

(** X: each [add] that completes bumps exactly one of [cache_hits] and
    [cache_misses] by one, [prune()] and [prune_if_greater] change
    neither, so over a completed run [cache_hits + cache_misses] grows by
    the number of [add] calls. *)
Theorem cache_counters_count_adds (tr : tree) (ops : list op) (tr' : tree) :
  run tr ops = Ok tr' ->
  (forall t o t', step t o = Ok t' ->
     match o with
     | OpAdd _ _ _ =>
       (cache_hits t' = cache_hits t + 1 /\ cache_misses t' = cache_misses t)%Z \/
       (cache_hits t' = cache_hits t /\ cache_misses t' = cache_misses t + 1)%Z
     | _ => cache_hits t' = cache_hits t /\ cache_misses t' = cache_misses t
     end) /\
  (cache_hits tr' + cache_misses tr' = cache_hits tr + cache_misses tr + Z.of_nat (adds ops))%Z.
Proof.
  intros H0. split; [exact step_counters_each|]. revert tr H0.
  induction ops as [|o ops IH]; intros tr H; cbn [run] in H.
  - injection H as <-. cbn [adds]. lia.
  - destruct (step tr o) as [tr1|f] eqn:E; cbn [bind] in H; [|discriminate].
    rewrite (IH _ H). pose proof (step_counters_each _ _ _ E) as C.
    destruct o; cbn [adds]; lia.
Qed.

Lemma cache_counters_count_adds_witness :
  exists tr,
    run (new_tree 4 1000) [OpAdd (ip4 10 0 0 1) 4 100; OpAdd (ip4 10 0 0 1) 4 1; OpPrune] = Ok tr /\
    cache_hits tr = 1%Z /\ cache_misses tr = 1%Z /\
    (cache_hits tr + cache_misses tr =
     cache_hits (new_tree 4 1000) + cache_misses (new_tree 4 1000) + 2)%Z.
Proof.
  eexists. split; [cbv; reflexivity|]. split; [cbv; reflexivity|]. split; [cbv; reflexivity|].
  apply (cache_counters_count_adds (new_tree 4 1000)
           [OpAdd (ip4 10 0 0 1) 4 100; OpAdd (ip4 10 0 0 1) 4 1; OpPrune]).
  cbv. reflexivity.
Defined.

End PruneProps.

(** * [get_histogram] on byte buffers *)

Module HistBytes.
Import IPTree IPTreeProps IP2TreeProps CacheProps.

(** An [addr_elem]: the [ADDRBYTES] address bytes, the [uint8_t] depth
    and the count. *)
Definition hist_entry : Type := (list Z * Z * Z)%type.

(** The result of a histogram walk: the entries pushed, or the walk
    dereferences a null [ptr], or it writes outside the [ADDRBYTES]
    stack buffers [addr0] and [addr1]. *)
Inductive hist_result : Type :=
| HistOk (h : list hist_entry)
| HistNullDeref
| HistOutOfBounds.

(** [get_histogram(depth, addr, ptr, histogram)] on [ADDRBYTES]-byte
    buffers: [memcpy(addr0, addr, (depth+7)/8)] and [setbit(addr1, depth)]
    write out of bounds when [(depth+7)/8 > ADDRBYTES] or
    [depth/8 >= ADDRBYTES]. *)
Fixpoint get_histogram_bytes (ADDRBYTES depth : nat) (addr : list Z) (ptr : node)
  : hist_result :=
  match ptr with
  | Nil => HistNullDeref
  | Node t ptr0 ptr1 =>
    let e := if (t =? 0)%Z then [] else [(addr, Z.of_nat (depth mod 256), t)] in
    if Nat.ltb max_histogram_depth depth then HistOk e else
    if Nat.ltb ADDRBYTES ((depth + 7) / 8) then HistOutOfBounds else
    let addr0 := memcpy (repeat 0%Z ADDRBYTES) addr ((depth + 7) / 8) in
    if Nat.leb ADDRBYTES (depth / 8) then HistOutOfBounds else
    let addr1 := setbit addr0 depth in
    match (if nonnull ptr0 then get_histogram_bytes ADDRBYTES (S depth) addr0 ptr0
           else HistOk []) with
    | HistOk h0 =>
      match (if nonnull ptr1 then get_histogram_bytes ADDRBYTES (S depth) addr1 ptr1
             else HistOk []) with
      | HistOk h1 => HistOk (e ++ h0 ++ h1)
      | r => r
      end
    | r => r
    end
  end.

(** [get_histogram(histogram)]: from a zeroed buffer at the root. *)
Definition histogram_bytes (tr : tree) : hist_result :=
  get_histogram_bytes (addrbytes tr) 0 (repeat 0%Z (addrbytes tr)) (root tr).

(** The [ADDRBYTES]-byte buffer whose first bits are [p] and whose other
    bits are 0, as the walk builds it with [setbit]. *)
Fixpoint pack_aux (p : list bool) (i : nat) (a : list Z) : list Z :=
  match p with
  | [] => a
  | b :: p' => pack_aux p' (S i) (if b then setbit a i else a)
  end.

Definition pack (ADDRBYTES : nat) (p : list bool) : list Z :=
  pack_aux p 0 (repeat 0%Z ADDRBYTES).

(** The [addr_elem] of a histogram entry of the path model. *)
Definition entry_bytes (ADDRBYTES : nat) (e : addr_elem) : hist_entry :=
  (pack ADDRBYTES (eaddr e), Z.of_nat (edepth e mod 256), ecount e).

(** A node [d + length p] bits deep, where the walk writes out of bounds. *)
Definition deep_node (ADDRBYTES d : nat) (n : node) : Prop :=
  exists p, nonnull (subnode n p) = true /\ (8 * ADDRBYTES <= d + List.length p <= 128)%nat.

Lemma deep_node_nil (AB d : nat) : ~ deep_node AB d Nil.
Proof. intros [p [H _]]. rewrite subnode_nil in H. discriminate. Qed.

Lemma deep_node_split (AB d : nat) (t : Z) (a b : node) :
  (d < 8 * AB)%nat ->
  deep_node AB d (Node t a b) <-> deep_node AB (S d) a \/ deep_node AB (S d) b.
Proof.
  intros Hd. split.
  - intros [[|[|] p] [Hn Hl]]; cbn [List.length subnode] in Hl, Hn; [lia| right | left];
      exists p; split; [exact Hn | lia | exact Hn | lia].
  - intros [[p [Hn Hl]]|[p [Hn Hl]]].
    + exists (false :: p). cbn [List.length subnode]. split; [exact Hn | lia].
    + exists (true :: p). cbn [List.length subnode]. split; [exact Hn | lia].
Qed.

Lemma div8_facts (d : nat) :
  (8 * (d / 8) <= d < 8 * (d / 8) + 8)%nat /\
  (8 * ((d + 7) / 8) <= d + 7 < 8 * ((d + 7) / 8) + 8)%nat.
Proof.
  pose proof (Nat.div_mod_eq d 8). pose proof (Nat.mod_upper_bound d 8 ltac:(lia)).
  pose proof (Nat.div_mod_eq (d + 7) 8). pose proof (Nat.mod_upper_bound (d + 7) 8 ltac:(lia)).
  lia.
Qed.

(** The walk from a node never dereferences null, and writes out of
    bounds exactly when some node at most 128 bits deep is at least
    [8 * ADDRBYTES] bits deep. *)
Lemma get_histogram_bytes_oob (AB : nat) (n : node) (d : nat) (addr : list Z) :
  nonnull n = true ->
  get_histogram_bytes AB d addr n <> HistNullDeref /\
  (get_histogram_bytes AB d addr n = HistOutOfBounds <-> deep_node AB d n).
Proof.
  revert d addr. induction n as [|t a IHa b IHb]; intros d addr Nn; [discriminate|].
  cbn [get_histogram_bytes]. unfold max_histogram_depth. pose proof (div8_facts d) as DF.
  destruct (Nat.ltb_spec 128 d) as [L1|L1].
  - split; [discriminate|]. split; [discriminate|]. intros [p [_ Hp]]. lia.
  - destruct (Nat.ltb_spec AB ((d + 7) / 8)) as [L2|L2].
    + split; [discriminate|]. split; [intros _|reflexivity].
      exists []. split; [reflexivity | cbn [List.length]; lia].
    + destruct (Nat.leb_spec AB (d / 8)) as [L3|L3].
      * split; [discriminate|]. split; [intros _|reflexivity].
        exists []. split; [reflexivity | cbn [List.length]; lia].
      * rewrite deep_node_split by lia.
        set (a0 := memcpy (repeat 0%Z AB) addr ((d + 7) / 8)).
        assert (Ca : forall x, (if nonnull a then get_histogram_bytes AB (S d) x a else HistOk [])
                     <> HistNullDeref /\
                     ((if nonnull a then get_histogram_bytes AB (S d) x a else HistOk [])
                      = HistOutOfBounds <-> deep_node AB (S d) a)).
        { intro x. destruct a as [|ta x0 x1].
          - split; [discriminate|]. split; [discriminate | intro D; destruct (deep_node_nil _ _ D)].
          - exact (IHa (S d) x eq_refl). }
        assert (Cb : forall x, (if nonnull b then get_histogram_bytes AB (S d) x b else HistOk [])
                     <> HistNullDeref /\
                     ((if nonnull b then get_histogram_bytes AB (S d) x b else HistOk [])
                      = HistOutOfBounds <-> deep_node AB (S d) b)).
        { intro x. destruct b as [|tb x0 x1].
          - split; [discriminate|]. split; [discriminate | intro D; destruct (deep_node_nil _ _ D)].
          - exact (IHb (S d) x eq_refl). }
        destruct (Ca a0) as [Na Oa]. destruct (Cb (setbit a0 d)) as [Nb Ob].
        rewrite <- Oa, <- Ob. revert Na Nb.
        destruct (if nonnull a then get_histogram_bytes AB (S d) a0 a else HistOk []) as [h0| |];
        destruct (if nonnull b then get_histogram_bytes AB (S d) (setbit a0 d) b else HistOk [])
          as [h1| |];
        intros Na Nb; split; try congruence; split; intuition congruence.
Qed.

Lemma pack_aux_app (p q : list bool) (i : nat) (a : list Z) :
  pack_aux (p ++ q) i a = pack_aux q (i + List.length p) (pack_aux p i a).
Proof.
  revert i a. induction p as [|b p IH]; intros i a; cbn [app pack_aux List.length].
  - rewrite Nat.add_0_r. reflexivity.
  - rewrite IH. f_equal. lia.
Qed.

Lemma pack_snoc (AB : nat) (p : list bool) (b : bool) :
  pack AB (p ++ [b]) = if b then setbit (pack AB p) (List.length p) else pack AB p.
Proof. unfold pack. rewrite pack_aux_app. reflexivity. Qed.

Lemma pack_aux_length (p : list bool) (i : nat) (a : list Z) :
  List.length (pack_aux p i a) = List.length a.
Proof.
  revert i a. induction p as [|b p IH]; intros i a; cbn [pack_aux]; [reflexivity|].
  rewrite IH. destruct b; [apply setbit_length | reflexivity].
Qed.

Lemma set_nth_out {A} (l : list A) (i : nat) (x : A) :
  (List.length l <= i)%nat -> set_nth l i x = l.
Proof.
  revert i. induction l as [|y l IH]; intros i H; [reflexivity|].
  destruct i as [|i]; cbn in H |- *; [lia|]. rewrite IH by lia. reflexivity.
Qed.

Lemma nth_setbit_other (a : list Z) (j k : nat) :
  k <> j / 8 -> nth k (setbit a j) 0%Z = nth k a 0%Z.
Proof.
  intros H. unfold setbit. destruct (Nat.ltb_spec (j / 8) (List.length a)) as [L|L].
  - rewrite nth_set_nth by exact L. destruct (Nat.eqb_spec k (j / 8)); [contradiction | reflexivity].
  - rewrite set_nth_out by exact L. reflexivity.
Qed.

(** The bytes wholly past the bits set are 0. *)
Lemma pack_aux_zero (p : list bool) (i : nat) (a : list Z) :
  (forall k, (i <= 8 * k)%nat -> nth k a 0%Z = 0%Z) ->
  forall k, (i + List.length p <= 8 * k)%nat -> nth k (pack_aux p i a) 0%Z = 0%Z.
Proof.
  revert i a. induction p as [|b p IH]; intros i a Ha k Hk; cbn [pack_aux List.length] in *.
  - apply Ha. lia.
  - apply IH; [|lia]. intros k' Hk'. destruct b; [|apply Ha; lia].
    pose proof (div8_facts i) as DF.
    rewrite nth_setbit_other by lia. apply Ha. lia.
Qed.

Lemma pack_zero (AB : nat) (p : list bool) (k : nat) :
  (List.length p <= 8 * k)%nat -> nth k (pack AB p) 0%Z = 0%Z.
Proof.
  intros H. apply (pack_aux_zero p 0); [|exact H].
  intros k' _. apply nth_repeat.
Qed.

Lemma memcpy_zero_tail (AB n d : nat) (x : list Z) :
  List.length x = AB -> (n <= AB)%nat -> (d <= 8 * n)%nat ->
  (forall k, (d <= 8 * k)%nat -> nth k x 0%Z = 0%Z) ->
  memcpy (repeat 0%Z AB) x n = x.
Proof.
  intros Lx Hn Hd Hz. apply nth_ext with (d := 0%Z) (d' := 0%Z).
  - unfold memcpy. rewrite length_app, bytes_length, length_skipn, repeat_length. lia.
  - intros k _. rewrite nth_memcpy. destruct (Nat.ltb_spec k n); [reflexivity|].
    rewrite nth_repeat. symmetry. apply Hz. lia.
Qed.

(** With buffers of at least 17 bytes the walk never leaves them, and it
    pushes the entries of the path model, with the bits of each path
    packed into bytes and the depth truncated to [uint8_t]. *)
Lemma get_histogram_bytes_path (AB : nat) (n : node) (d : nat) (p : list bool) :
  (17 <= AB)%nat -> nonnull n = true -> List.length p = d ->
  get_histogram_bytes AB d (pack AB p) n = HistOk (map (entry_bytes AB) (get_histogram d p n)).
Proof.
  intros HAB. revert d p. induction n as [|t a IHa b IHb]; intros d p Nn Lp; [discriminate|].
  cbn [get_histogram_bytes get_histogram]. unfold max_histogram_depth.
  pose proof (div8_facts d) as DF.
  destruct (Nat.ltb_spec 128 d) as [L1|L1].
  - rewrite app_nil_r. destruct (t =? 0)%Z; reflexivity.
  - destruct (Nat.ltb_spec AB ((d + 7) / 8)) as [L2|L2]; [lia|].
    destruct (Nat.leb_spec AB (d / 8)) as [L3|L3]; [lia|].
    rewrite (memcpy_zero_tail AB ((d + 7) / 8) d (pack AB p)).
    2: { unfold pack. rewrite pack_aux_length, repeat_length. reflexivity. }
    2: lia. 2: lia.
    2: { intros k Hk. apply pack_zero. lia. }
    assert (Ca : (if nonnull a then get_histogram_bytes AB (S d) (pack AB p) a else HistOk []) =
                 HistOk (if nonnull a then map (entry_bytes AB) (get_histogram (S d) (p ++ [false]) a)
                         else [])).
    { destruct a as [|ta a0 a1]; [reflexivity|].
      replace (pack AB p) with (pack AB (p ++ [false])) by (rewrite pack_snoc; reflexivity).
      apply IHa; [reflexivity | rewrite length_app; cbn; lia]. }
    assert (Cb : (if nonnull b then get_histogram_bytes AB (S d) (setbit (pack AB p) d) b
                  else HistOk []) =
                 HistOk (if nonnull b then map (entry_bytes AB) (get_histogram (S d) (p ++ [true]) b)
                         else [])).
    { destruct b as [|tb b0 b1]; [reflexivity|].
      replace (setbit (pack AB p) d) with (pack AB (p ++ [true])) by (rewrite pack_snoc, Lp; reflexivity).
      apply IHb; [reflexivity | rewrite length_app; cbn; lia]. }
    rewrite Ca, Cb. rewrite !map_app.
    destruct (nonnull a), (nonnull b), (t =? 0)%Z; reflexivity.
Qed.

(** X: the histogram walk of a tree with a root never dereferences null;
    it writes outside its [ADDRBYTES]-byte stack buffers exactly when the
    tree has a node whose depth [d] satisfies [8 * ADDRBYTES <= d <= 128]
    (in an [iptree], [ADDRBYTES = 16], a node at depth 128: the
    [setbit(addr1, 128)] writes [addr1[16]]). *)
Theorem histogram_out_of_bounds (tr : tree) :
  nonnull (root tr) = true ->
  histogram_bytes tr <> HistNullDeref /\
  (histogram_bytes tr = HistOutOfBounds <->
   exists p, nonnull (subnode (root tr) p) = true /\
             (8 * addrbytes tr <= List.length p <= 128)%nat).
Proof.
  intros H. unfold histogram_bytes. exact (get_histogram_bytes_oob _ _ 0 _ H).
Qed.

Lemma histogram_out_of_bounds_witness :
  exists tr,
    run (new_tree 16 100) [OpAdd (repeat 1%Z 16) 16 5] = Ok tr /\
    histogram_bytes tr = HistOutOfBounds /\
    (histogram_bytes tr <> HistNullDeref /\
     (histogram_bytes tr = HistOutOfBounds <->
      exists p, nonnull (subnode (root tr) p) = true /\
                (8 * addrbytes tr <= List.length p <= 128)%nat)).
Proof.
  eexists. split; [cbv; reflexivity|]. split; [cbv; reflexivity|].
  apply histogram_out_of_bounds. cbv. reflexivity.
Defined.

(** X: with buffers of at least 17 bytes (an [ip2tree] has 32), the
    histogram walk stays in bounds and pushes exactly the entries of the
    path model [histogram], in the same order, each with its path packed
    into the address bytes and its depth as a [uint8_t]. *)
Theorem histogram_bytes_refines (tr : tree) :
  (17 <= addrbytes tr)%nat -> nonnull (root tr) = true ->
  histogram_bytes tr = HistOk (map (entry_bytes (addrbytes tr)) (histogram tr)).
Proof.
  intros HAB Nn. unfold histogram_bytes, histogram.
  exact (get_histogram_bytes_path (addrbytes tr) (root tr) 0 [] HAB Nn eq_refl).
Qed.

Lemma histogram_bytes_refines_witness :
  exists tr,
    IP2Tree.add_pair (IP2Tree.new_tree2 100) [10; 0; 0; 1]%Z [192; 168; 0; 1]%Z 4 7 = Ok tr /\
    histogram_bytes tr = HistOk (map (entry_bytes (addrbytes tr)) (histogram tr)).
Proof.
  eexists. split; [cbv; reflexivity|].
  apply histogram_bytes_refines; cbv; [lia | reflexivity].
Defined.

End HistBytes.

(** * Rendering the addresses of an [ip2tree] *)

Module PairRender.
Import IPTree IP2Tree IPTreeProps IP2TreeProps.

Section Render2.
(** [ipv6(a)] renders through the C library's [inet_ntop(AF_INET6, ...)]. *)
Variable ipv6 : list Z -> string.

(** [ip2tree::ip2str(addr, addrlen, depth)]: de-interleave into two
    zeroed 16-byte buffers and render each with [ipstr]. *)
Definition ip2str (addr : list Z) (addrlen depth : nat) : string :=
  let '(addr1, addr2, depth1, depth2) :=
    un_pair (repeat 0%Z 16) (repeat 0%Z 16) addr addrlen depth in
  String.append (ipstr ipv6 addr1 16 depth1)
    (String.append " " (ipstr ipv6 addr2 16 depth2)).
End Render2.

(** The prefix-length suffix [ipstr] appends to an IPv4 address. *)
Definition v4_suffix (depth : nat) : string :=
  if Nat.ltb depth ipv4_bits then String.append "/" (itos depth) else EmptyString.

(** [un_pair] recovers the two addresses [add_pair] interleaved, with
    the depth split as [(depth+1)/2] and [depth/2]. *)
Lemma un_pair_pair_key (a1 a2 : list Z) (L addrlen depth : nat) :
  List.length a1 = L -> List.length a2 = L -> (L <= 16)%nat ->
  Forall is_byte a1 -> Forall is_byte a2 ->
  (2 * L <= addrlen <= 32)%nat ->
  un_pair (repeat 0%Z 16) (repeat 0%Z 16) (pair_key a1 a2 L) addrlen depth =
    (a1 ++ repeat 0%Z (16 - L), a2 ++ repeat 0%Z (16 - L), (depth + 1) / 2, depth / 2)%nat.
Proof.
  intros La1 La2 HL B1 B2 Hm.
  rewrite un_pair_fold.
  assert (Hn : (addrlen * 8 / 2 = addrlen * 4)%nat).
  { replace (addrlen * 8)%nat with (addrlen * 4 * 2)%nat by lia. apply Nat.div_mul. lia. }
  rewrite Hn.
  destruct (deinterleave_bits (pair_key a1 a2 L) (addrlen * 4) ltac:(lia))
    as [Hl1 [Hl2 [Hb1 [Hb2 Hb]]]].
  destruct (fold_left (deinterleave_step (pair_key a1 a2 L)) (seq 0 (addrlen * 4))
              (repeat 0%Z 16, repeat 0%Z 16)) as [r1 r2]. simpl in *.
  destruct (interleave_bits a1 a2 (L * 8) ltac:(lia)) as [_ Hk].
  rewrite <- pair_key_fold in Hk.
  assert (Hz : forall a, List.length a = L -> Forall is_byte a ->
            List.length (a ++ repeat 0%Z (16 - L)) = 16%nat /\
            Forall is_byte (a ++ repeat 0%Z (16 - L))).
  { intros a La Ba. rewrite length_app, repeat_length. split; [lia|].
    apply Forall_app. split; [exact Ba|].
    apply Forall_forall. intros x Hx. apply repeat_spec in Hx. subst. unfold is_byte; lia. }
  destruct (Hz a1 La1 B1) as [Lz1 Bz1]. destruct (Hz a2 La2 B2) as [Lz2 Bz2].
  assert (E1 : r1 = a1 ++ repeat 0%Z (16 - L)).
  { apply bytes_eq_of_bits; try congruence; auto.
    intro i. rewrite bit_app_zeros. destruct (Hb i) as [-> _]. destruct (Hk i) as [-> _].
    destruct (Nat.ltb_spec i (addrlen * 4)), (Nat.ltb_spec i (L * 8)); simpl; auto;
      try lia; symmetry; apply bit_beyond; lia. }
  assert (E2 : r2 = a2 ++ repeat 0%Z (16 - L)).
  { apply bytes_eq_of_bits; try congruence; auto.
    intro i. rewrite bit_app_zeros. destruct (Hb i) as [_ ->]. destruct (Hk i) as [_ ->].
    destruct (Nat.ltb_spec i (addrlen * 4)), (Nat.ltb_spec i (L * 8)); simpl; auto;
      try lia; symmetry; apply bit_beyond; lia. }
  rewrite E1, E2. reflexivity.
Qed.

Lemma string_append_assoc (s1 s2 s3 : string) :
  String.append (String.append s1 s2) s3 = String.append s1 (String.append s2 s3).
Proof. induction s1 as [|c s1 IH]; cbn; [reflexivity | rewrite IH; reflexivity]. Qed.

Lemma nth_app_zeros (a : list Z) (k i : nat) :
  nth i (a ++ repeat 0%Z k) 0%Z = nth i a 0%Z.
Proof.
  destruct (Nat.ltb_spec i (List.length a)).
  - apply app_nth1. exact H.
  - rewrite app_nth2 by exact H. rewrite (nth_overflow a) by exact H.
    destruct (Nat.ltb_spec (i - List.length a) k).
    + apply nth_repeat.
    + apply nth_overflow. rewrite repeat_length. exact H0.
Qed.

Lemma ipv4_app_zeros (a : list Z) (k : nat) : ipv4 (a ++ repeat 0%Z k) = ipv4 a.
Proof. unfold ipv4. rewrite !nth_app_zeros. reflexivity. Qed.

Lemma isipv4_short (a : list Z) (L : nat) :
  (L <= 4)%nat -> List.length a = L -> isipv4 (a ++ repeat 0%Z (16 - L)) 16 = true.
Proof.
  intros HL La. unfold isipv4. cbn [Nat.eqb]. apply forallb_forall.
  intros i Hi. apply in_seq in Hi. rewrite nth_app_zeros, nth_overflow by lia. reflexivity.
Qed.

(** X: [ip2str] on the 32-byte key that [add_pair] builds from two IPv4
    addresses of at most 4 bytes renders the two addresses in dotted
    form, the first with prefix length [(depth+1)/2] and the second with
    [depth/2] (each suffix omitted from 32 on), separated by a space. *)
Theorem ip2str_pair_key (ipv6 : list Z -> string) (a1 a2 : list Z) (L depth : nat) :
  List.length a1 = L -> List.length a2 = L -> (L <= 4)%nat ->
  Forall is_byte a1 -> Forall is_byte a2 ->
  ip2str ipv6 (pair_key a1 a2 L) 32 depth =
  String.append (ipv4 a1)
    (String.append (v4_suffix ((depth + 1) / 2))
      (String.append " " (String.append (ipv4 a2) (v4_suffix (depth / 2))))).
Proof.
  intros La1 La2 HL B1 B2. unfold ip2str.
  rewrite (un_pair_pair_key a1 a2 L 32 depth La1 La2 ltac:(lia) B1 B2 ltac:(lia)).
  unfold ipstr. rewrite (isipv4_short a1 L HL La1), (isipv4_short a2 L HL La2).
  rewrite !ipv4_app_zeros. unfold v4_suffix.
  apply string_append_assoc.
Qed.

Lemma ip2str_pair_key_witness :
  ip2str (fun _ => EmptyString) (pair_key [10; 0; 0; 1]%Z [192; 168; 0; 1]%Z 4) 32 40 =
    "10.0.0.1/20 192.168.0.1/20"%string /\
  ip2str (fun _ => EmptyString) (pair_key [10; 0; 0; 1]%Z [192; 168; 0; 1]%Z 4) 32 40 =
  String.append (ipv4 [10; 0; 0; 1]%Z)
    (String.append (v4_suffix ((40 + 1) / 2))
      (String.append " " (String.append (ipv4 [192; 168; 0; 1]%Z) (v4_suffix (40 / 2))))).
Proof.
  split.
  - vm_compute. reflexivity.
  - apply (ip2str_pair_key _ _ _ 4 40); try reflexivity; try lia;
      repeat constructor; unfold is_byte; lia.
Defined.

End PairRender.

(** * The address [add] stores in the cache *)

Module CacheLookup.
Import IPTree IPTreeProps IP2TreeProps CacheProps.

Lemma cache_remove_length (c : list cache_element) (p : list bool) :
  List.length (cache_remove c p) = List.length c.
Proof. exact (Forall2_length (cache_remove_weaker c p)). Qed.

Lemma node_prune_cache_length (tr : tree) (P : list bool) (tr' : tree) (z : Z) :
  node_prune tr P = Ok (tr', z) -> List.length (cache tr') = List.length (cache tr).
Proof.
  intros H. unfold node_prune in H.
  destruct (subnode (root tr) P) as [|ts p0 p1]; [discriminate|].
  destruct p0 as [|t0 x0 y0]; [| destruct (term (Node t0 x0 y0)); [|discriminate]];
  (destruct p1 as [|t1 x1 y1];
    [| destruct (term (Node t1 x1 y1)); [| cbn [bind] in H; discriminate]]);
  cbn [bind] in H; injection H as <- _; cbn [cache set_root forget_child];
  rewrite ?cache_remove_length; reflexivity.
Qed.

Lemma prune_cache_length (tr tr' : tree) (z : Z) :
  prune tr = Ok (tr', z) -> List.length (cache tr') = List.length (cache tr).
Proof.
  unfold prune. intros H. destruct (term (root tr)); [injection H as <- _; reflexivity|].
  destruct (best_to_prune (root tr) 0) as [[p d]|f]; cbn [bind fst] in H; [|discriminate].
  exact (node_prune_cache_length _ _ _ _ H).
Qed.

Lemma prune_loop_cache_length (fuel : nat) (tr tr' : tree) :
  prune_loop fuel tr = Ok tr' -> List.length (cache tr') = List.length (cache tr).
Proof.
  revert tr. induction fuel as [|fuel IH]; intros tr0 H; cbn [prune_loop] in H.
  - injection H as <-. reflexivity.
  - destruct (_ <? _)%Z; [|injection H as <-; reflexivity].
    destruct (prune tr0) as [[tr1 z]|f] eqn:E; cbn [bind fst snd] in H; [|discriminate].
    rewrite <- (prune_cache_length _ _ _ E).
    destruct (z =? 0)%Z; [injection H as <-; reflexivity | exact (IH _ H)].
Qed.

Lemma prune_if_greater_cache_length (tr tr' : tree) (limit : Z) :
  prune_if_greater tr limit = Ok tr' -> List.length (cache tr') = List.length (cache tr).
Proof.
  unfold prune_if_greater. intros H. destruct (_ <=? _)%Z.
  - exact (prune_loop_cache_length _ _ _ H).
  - injection H as <-. reflexivity.
Qed.

Lemma add_cache_length (tr : tree) (a : list Z) (l : nat) (v : Z) (tr' : tree) :
  add tr a l v = Ok tr' -> List.length (cache tr') = List.length (cache tr).
Proof.
  unfold add. intros H.
  destruct (prune_if_greater tr (maxnodes tr)) as [tr1|f] eqn:E1; cbn [bind] in H;
    [|discriminate].
  rewrite <- (prune_if_greater_cache_length _ _ _ E1). unfold cache_search in H.
  match type of H with
  | context [cache_scan (cache tr1) a ?len 0] => destruct (cache_scan (cache tr1) a len 0)
  end; cbn [cache root] in H.
  - destruct (cptr _); [|discriminate].
    destruct (add_at (root tr1) _ v); cbn [bind] in H; [|discriminate].
    injection H as <-. reflexivity.
  - match type of H with
    | context [descend_add (root tr1) ?bs v] => destruct (descend_add (root tr1) bs v)
    end.
    injection H as <-. unfold cache_replace. cbn [cache]. apply set_nth_length.
Qed.

Lemma run_cache_length (ops : list op) (tr tr' : tree) :
  run tr ops = Ok tr' -> List.length (cache tr') = List.length (cache tr).
Proof.
  revert tr. induction ops as [|o ops IH]; intros tr H; cbn [run] in H.
  - injection H as <-. reflexivity.
  - destruct (step tr o) as [tr1|f] eqn:E; cbn [bind] in H; [|discriminate].
    rewrite (IH _ H). destruct o as [a l v| |limit]; cbn [step] in E.
    + exact (add_cache_length _ _ _ _ _ E).
    + destruct (prune tr) as [[tr2 z]|f] eqn:P; cbn [bind fst] in E; [|discriminate].
      injection E as <-. exact (prune_cache_length _ _ _ P).
    + exact (prune_if_greater_cache_length _ _ _ E).
Qed.

Lemma set_nth_in {A} (l : list A) (i : nat) (x : A) :
  (i < List.length l)%nat -> In x (set_nth l i x).
Proof.
  revert i. induction l as [|y l IH]; intros i H; cbn in H; [lia|].
  destruct i as [|i]; cbn [set_nth In]; [left; reflexivity | right; apply IH; lia].
Qed.

Lemma memeq_memcpy (dst src : list Z) (n : nat) : memeq (memcpy dst src n) src n = true.
Proof.
  unfold memeq.
  assert (E : bytes n (memcpy dst src n) = bytes n src).
  { unfold bytes. apply map_ext_in. intros i Hi. apply in_seq in Hi.
    rewrite nth_memcpy. destruct (Nat.ltb_spec i n); [reflexivity | lia]. }
  rewrite E. destruct (list_eq_dec Z.eq_dec (bytes n src) (bytes n src)); congruence.
Qed.

(** X: in every state reached from a new tree the cache keeps its
    [cache_size] = 4 elements, and an [add] that completes leaves an
    element in use in the cache that matches its address on its
    (clamped) length: a lookup of the same address and length right
    after it is a hit. *)
Theorem add_then_cached (ADDRBYTES : nat) (maxnodes_ : Z) (ops : list op)
    (tr : tree) (a : list Z) (l : nat) (v : Z) (tr' : tree) :
  run (new_tree ADDRBYTES maxnodes_) ops = Ok tr ->
  add tr a l v = Ok tr' ->
  List.length (cache tr) = cache_size /\ List.length (cache tr') = cache_size /\
  cache_scan (cache tr') a (if Nat.ltb (addrbytes tr') l then addrbytes tr' else l) 0 <> None.
Proof.
  intros R H.
  assert (Lc : List.length (cache tr) = cache_size)
    by (rewrite (run_cache_length _ _ _ R); apply repeat_length).
  split; [exact Lc|]. split; [rewrite (add_cache_length _ _ _ _ _ H); exact Lc|].
  unfold add in H.
  destruct (prune_if_greater tr (maxnodes tr)) as [tr1|f] eqn:E1; cbn [bind] in H;
    [|discriminate].
  pose proof (prune_if_greater_cache_length _ _ _ E1) as L1. rewrite Lc in L1.
  unfold cache_search in H.
  match type of H with
  | context [cache_scan (cache tr1) a ?len 0] =>
      set (l' := len) in H; destruct (cache_scan (cache tr1) a l' 0) as [j|] eqn:Sc
  end; cbn [cache root addrbytes] in H.
  - destruct (cptr _); [|discriminate].
    destruct (add_at (root tr1) _ v); cbn [bind] in H; [|discriminate].
    injection H as <-. cbn [cache addrbytes set_root]. fold l'. rewrite Sc. discriminate.
  - match type of H with
    | context [descend_add (root tr1) ?bs v] => destruct (descend_add (root tr1) bs v)
    end.
    injection H as <-. unfold cache_replace. cbn [cache addrbytes]. fold l'.
    set (next := if Nat.leb _ _ then O else S _).
    set (e := mk_cache_element (memcpy _ a l') _).
    assert (Hin : In e (set_nth (cache tr1) next e)).
    { apply set_nth_in. unfold next. cbn [cache cachenext]. rewrite L1. unfold cache_size.
      destruct (Nat.leb_spec 4 (S (cachenext tr1))); lia. }
    intro N. pose proof (cache_scan_none _ _ _ _ N e Hin) as M.
    unfold e in M. cbn [caddr cptr] in M.
    rewrite memeq_memcpy in M. specialize (M ltac:(discriminate)). discriminate.
Qed.

Lemma add_then_cached_witness :
  exists tr tr',
    run (new_tree 4 10) [OpAdd [10; 0; 0; 1]%Z 4 100%Z] = Ok tr /\
    add tr [10; 0; 0; 2]%Z 4 1%Z = Ok tr' /\
    List.length (cache tr) = cache_size /\ List.length (cache tr') = cache_size /\
    cache_scan (cache tr') [10; 0; 0; 2]%Z
      (if Nat.ltb (addrbytes tr') 4 then addrbytes tr' else 4) 0 <> None.
Proof.
  do 2 eexists. split; [cbv; reflexivity|]. split; [cbv; reflexivity|].
  eapply (add_then_cached 4 10 [OpAdd [10; 0; 0; 1]%Z 4 100%Z] _ [10; 0; 0; 2]%Z 4 1%Z);
    [cbv; reflexivity | cbv; reflexivity].
Defined.

End CacheLookup.

(** * The histogram total of the byte-level walk *)

Module HistTotal.
Import IPTree IPTreeProps IP2TreeProps HistBytes.







End HistTotal.
